(** * nakama-go: the realtime socket adapter and the session refresh gate

    A shallow embedding of [WebSocketAdapter] (connect, send, close, the
    receive loop and the two payload codecs [handleEncodedData] and
    [decodeReceivedData]) and of the session-aware client operations
    [RefreshSession], [AddGroupUsers] and [AddFriends] of [client.go],
    followed by the properties proved about them. *)

From Stdlib Require Import ZArith NArith Lia List Ascii String.
From Stdlib Require Import Strings.Byte Numbers.DecimalString Numbers.DecimalZ.
From stdpp Require Import gmap strings list fin_maps sorting.

Local Open Scope string_scope.
Local Open Scope list_scope.

(* ===================================================================== *)
(** ** Library layer: encoding/base64, StdEncoding                        *)
(* ===================================================================== *)

Module Base64.

(** The standard alphabet of RFC 4648 and its padding character. *)
Definition encodeStd : string :=
  "ABCDEFGHIJKLMNOPQRSTUVWXYZabcdefghijklmnopqrstuvwxyz0123456789+/".

Definition StdPadding : ascii := "="%char.

(** [enc.encode[v]] for a 6-bit value. *)
Definition encode6 (v : N) : ascii :=
  match String.get (N.to_nat v) encodeStd with
  | Some c => c
  | None => StdPadding
  end.

(** [enc.decodeMap[c]]: the position of [c] in the alphabet, [None] where
    the table holds 0xff. *)
Definition decode6 (c : ascii) : option N :=
  option_map N.of_nat (String.index 0 (String c EmptyString) encodeStd).

(** [byte(x)]: conversion of an unsigned integer to a byte keeps the low
    eight bits. *)
Definition byte_of_uint (x : N) : byte :=
  match Byte.of_N (N.land x 255) with
  | Some b => b
  | None => x00
  end.

(** One full quantum: three source bytes give four characters. *)
Definition encodeQuantum (val : N) : list ascii :=
  [ encode6 (N.land (N.shiftr val 18) 63);
    encode6 (N.land (N.shiftr val 12) 63);
    encode6 (N.land (N.shiftr val 6) 63);
    encode6 (N.land val 63) ].

(** [Encoding.Encode]: whole quanta first, then the one or two remaining
    bytes, padded. *)
Fixpoint encodeChars (src : list byte) : list ascii :=
  match src with
  | [] => []
  | [b0] =>
      let val := N.shiftl (Byte.to_N b0) 16 in
      [ encode6 (N.land (N.shiftr val 18) 63);
        encode6 (N.land (N.shiftr val 12) 63);
        StdPadding; StdPadding ]
  | [b0; b1] =>
      let val := N.lor (N.shiftl (Byte.to_N b0) 16)
                       (N.shiftl (Byte.to_N b1) 8) in
      [ encode6 (N.land (N.shiftr val 18) 63);
        encode6 (N.land (N.shiftr val 12) 63);
        encode6 (N.land (N.shiftr val 6) 63);
        StdPadding ]
  | b0 :: b1 :: b2 :: rest =>
      let val := N.lor (N.lor (N.shiftl (Byte.to_N b0) 16)
                              (N.shiftl (Byte.to_N b1) 8))
                       (Byte.to_N b2) in
      encodeQuantum val ++ encodeChars rest
  end.

Definition EncodeToString (src : list byte) : string :=
  string_of_list_ascii (encodeChars src).

(** The decoder skips carriage returns and line feeds wherever they occur. *)
Definition isNewline (c : ascii) : bool :=
  (Ascii.eqb c "010"%char || Ascii.eqb c "013"%char)%bool.

(** The value assembled from four 6-bit digits. *)
Definition quantumVal (v0 v1 v2 v3 : N) : N :=
  N.lor (N.lor (N.lor (N.shiftl v0 18) (N.shiftl v1 12)) (N.shiftl v2 6)) v3.

(** [Encoding.decodeQuantum], iterated over the input with the newlines
    removed: groups of four alphabet characters; the last group may end in
    one or two padding characters, after which nothing may follow.  The
    encoding is not strict: the unused low bits of a padded group are not
    checked. *)
Fixpoint decodeChars (src : list ascii) : option (list byte) :=
  match src with
  | [] => Some []
  | c0 :: c1 :: c2 :: c3 :: rest =>
      match decode6 c0, decode6 c1 with
      | Some v0, Some v1 =>
          match decode6 c2 with
          | Some v2 =>
              match decode6 c3 with
              | Some v3 =>
                  let val := quantumVal v0 v1 v2 v3 in
                  option_map
                    (fun tl => byte_of_uint (N.shiftr val 16)
                               :: byte_of_uint (N.shiftr val 8)
                               :: byte_of_uint val :: tl)
                    (decodeChars rest)
              | None =>
                  if (Ascii.eqb c3 StdPadding && bool_decide (rest = []))%bool
                  then let val := quantumVal v0 v1 v2 0 in
                       Some [ byte_of_uint (N.shiftr val 16);
                              byte_of_uint (N.shiftr val 8) ]
                  else None
              end
          | None =>
              if (Ascii.eqb c2 StdPadding && Ascii.eqb c3 StdPadding
                  && bool_decide (rest = []))%bool
              then let val := quantumVal v0 v1 0 0 in
                   Some [ byte_of_uint (N.shiftr val 16) ]
              else None
          end
      | _, _ => None
      end
  | _ => None
  end.

Definition DecodeString (s : string) : option (list byte) :=
  decodeChars
    (List.filter (fun c => negb (isNewline c)) (list_ascii_of_string s)).

End Base64.

(* ===================================================================== *)
(** ** Library layer: fmt, strconv and net/url                            *)
(* ===================================================================== *)

(** [%v] of a Go integer: its decimal digits, with a minus sign when
    negative. *)
Definition formatInt (n : Z) : string :=
  NilZero.string_of_int (Z.to_int n).


Definition formatBool (b : bool) : string := if b then "true" else "false".

Definition hexDigit (n : N) : ascii :=
  match String.get (N.to_nat n) "0123456789ABCDEF" with
  | Some c => c
  | None => "0"%char
  end.

(** [url.QueryEscape]: letters, digits and [-_.~] are kept, a space becomes
    [+], every other byte becomes [%XX]. *)
Definition unreserved (c : ascii) : bool :=
  let n := N_of_ascii c in
  ((65 <=? n) && (n <=? 90) || (97 <=? n) && (n <=? 122)
   || (48 <=? n) && (n <=? 57)
   || Ascii.eqb c "-" || Ascii.eqb c "_" || Ascii.eqb c "."
   || Ascii.eqb c "~")%N%bool.

Fixpoint QueryEscape (s : string) : string :=
  match s with
  | EmptyString => EmptyString
  | String c s' =>
      if unreserved c then String c (QueryEscape s')
      else if Ascii.eqb c " " then String "+" (QueryEscape s')
      else String "%" (String (hexDigit (N.shiftr (N_of_ascii c) 4))
                         (String (hexDigit (N.land (N_of_ascii c) 15))
                            (QueryEscape s')))
  end.

(** [strings.Join]. *)
Fixpoint join (sep : string) (l : list string) : string :=
  match l with
  | [] => EmptyString
  | [x] => x
  | x :: tl => x +:+ sep +:+ join sep tl
  end.

(* ===================================================================== *)
(** ** Go values and JSON documents                                       *)
(* ===================================================================== *)

#[local] Set Warnings "-register-all".

(** A frame on the wire is UTF-8 JSON text.  It is taken here as the
    document the text denotes: member order and spacing are not part of it,
    and a number is kept as its literal. *)
Inductive json : Type :=
| JNull
| JBool (b : bool)
| JNum (lit : string)
| JStr (s : string)
| JArr (l : list json)
| JObj (m : gmap string json).

(** Maps are references in Go.  The values a caller hands to [Send] live in
    a store of maps and name a map by its location, so that two keys, or the
    caller and the adapter, can hold the same map.  A location without a cell
    is the nil map. *)
Definition loc := positive.

(** The dynamic types of [interface{}] that flow through the adapter on the
    sending side: nil, bool, int, string, []byte, []interface{} and
    map[string]interface{}.  A float64 is left out, the embedding having no
    floating point; a string is a sequence of bytes. *)
Inductive value : Type :=
| VNil
| VBool (b : bool)
| VInt (n : Z)
| VString (s : string)
| VBytes (p : list byte)
| VSlice (l : list value)
| VMap (r : loc).

Abbreviation heap := (gmap loc (gmap string value)).

(** [m[k]] with the comma-ok form, on the map at [r]. *)
Definition mapLookup (h : heap) (r : loc) (k : string) : option value :=
  match h !! r with
  | Some m => m !! k
  | None => None
  end.

(** [m[k] = v]: the map at [r] is updated in place. *)
Definition mapStore (h : heap) (r : loc) (k : string) (v : value) : heap :=
  match h !! r with
  | Some m => <[r := <[k := v]> m]> h
  | None => h
  end.

(** What [json.Unmarshal] builds is new and held by nobody else: it is kept
    by value.  Every JSON number becomes a float64, written here with the
    literal it was read from. *)
Inductive datum : Type :=
| DNil
| DBool (b : bool)
| DFloat (lit : string)
| DString (s : string)
| DBytes (p : list byte)
| DSlice (l : list datum)
| DMap (m : gmap string datum).

(** All members present, or none. *)
Definition map_sequence {A : Type} (m : gmap string (option A))
  : option (gmap string A) :=
  if decide (map_Forall (fun _ x => is_Some x) m)
  then Some (omap id m) else None.

Definition keysSorted {A : Type} (m : gmap string A) : list string :=
  merge_sort (fun a b => Is_true (String.leb a b)) (List.map fst (map_to_list m)).

(** [fmt.Sprintf("%v", v)].  Maps print as [map[k:v ...]] in key order, slices
    as [[a b ...]], the nil interface as [<nil>].  Following a map reference
    costs one unit of [fuel]; callers pass more than the number of maps in the
    store, which no value without a cycle can use up. *)
Fixpoint Sprint (fuel : nat) (h : heap) : value -> string :=
  fix go (v : value) : string :=
    match v with
    | VNil => "<nil>"
    | VBool b => formatBool b
    | VInt n => formatInt n
    | VString s => s
    | VBytes p =>
        "[" +:+ join " " (List.map (fun b => formatInt (Z.of_N (Byte.to_N b))) p)
        +:+ "]"
    | VSlice l => "[" +:+ join " " (List.map go l) +:+ "]"
    | VMap r =>
        match fuel with
        | O => EmptyString
        | S f =>
            match h !! r with
            | None => "map[]"
            | Some m =>
                "map[" +:+
                join " " (List.map
                            (fun k => k +:+ ":" +:+
                                      match m !! k with
                                      | Some x => Sprint f h x
                                      | None => EmptyString
                                      end)
                            (keysSorted m)) +:+ "]"
            end
        end
    end.

(** [json.Marshal] of a caller's value.  A []byte is written as the base64
    text of its bytes, an int as its digits, the nil map as null, a string
    as itself (the encoder's replacement of bytes that are not UTF-8 is not
    represented).  [None] is the error the encoder reports for a value that
    contains itself. *)
Fixpoint marshal (fuel : nat) (h : heap) : value -> option json :=
  fix go (v : value) : option json :=
    match v with
    | VNil => Some JNull
    | VBool b => Some (JBool b)
    | VInt n => Some (JNum (formatInt n))
    | VString s => Some (JStr s)
    | VBytes p => Some (JStr (Base64.EncodeToString p))
    | VSlice l => option_map JArr (mapM go l)
    | VMap r =>
        match fuel with
        | O => None
        | S f =>
            match h !! r with
            | None => Some JNull
            | Some m => option_map JObj (map_sequence (marshal f h <$> m))
            end
        end
    end.

(** The bound used by the adapter's calls. *)
Definition depthBound (h : heap) : nat := S (size h).

(** [json.Unmarshal] into an [interface{}] position. *)
Fixpoint unmarshal (j : json) : datum :=
  match j with
  | JNull => DNil
  | JBool b => DBool b
  | JNum lit => DFloat lit
  | JStr s => DString s
  | JArr l => DSlice (List.map unmarshal l)
  | JObj m => DMap (unmarshal <$> m)
  end.

(* ===================================================================== *)
(** ** Errors, frames and observable events                               *)
(* ===================================================================== *)

(** The error values met by the adapter and the client. *)
Inductive error : Type :=
| errorString (msg : string)               (* errors.New, fmt.Errorf *)
| CloseError (code : Z) (text : string)    (* *websocket.CloseError *)
| netError (msg : string)                  (* any other transport error *)
| SyntaxError (msg : string)               (* *json.SyntaxError *)
| UnmarshalTypeError (found : string)      (* *json.UnmarshalTypeError *)
| UnsupportedValueError (msg : string).    (* *json.UnsupportedValueError *)

(** [websocket.IsUnexpectedCloseError(err, expectedCodes...)]. *)
Definition IsUnexpectedCloseError (err : error) (expectedCodes : list Z) : bool :=
  match err with
  | CloseError code _ => negb (existsb (Z.eqb code) expectedCodes)
  | _ => false
  end.

(** The bytes of one message: JSON text, given by its document, or text that
    is not JSON at all. *)
Inductive frame : Type :=
| Text (doc : json)
| Malformed (reason : string).

(** A connection returned by the dialer. *)
Definition conn := nat.

Inductive printArg : Type :=
| ArgValue (text : string)
| ArgError (err : error).

(** What the adapter does to the outside, in order. *)
Inductive event : Type :=
| EDial (urlStr : string)
| EConnClose (c : conn)
| EWriteMessage (c : conn) (msgBytes : json) (result : option error)
| EOnOpen
| EOnMessage (messageBytes : json)
| EOnError (err : error)
| EOnClose
| EGoListen (c : conn)
| EPrintln (line : string)
| EPrintf (format : string) (arg : printArg).

(* ===================================================================== *)
(** ** WebSocketAdapter                                                   *)
(* ===================================================================== *)

(** The callbacks are functions of the host application; the adapter only
    tests them against nil and calls them, so a field records whether one is
    set and a call is an [event].  The mutex is not represented: the
    operations below run one at a time. *)
Record WebSocketAdapter : Type := mkAdapter {
  socket : option conn;
  onClose : bool;
  onError : bool;
  onMessage : bool;
  onOpen : bool
}.

Definition setSocket (w : WebSocketAdapter) (s : option conn) : WebSocketAdapter :=
  {| socket := s; onClose := onClose w; onError := onError w;
     onMessage := onMessage w; onOpen := onOpen w |}.

Definition NewWebSocketAdapter : WebSocketAdapter :=
  {| socket := None; onClose := false; onError := false;
     onMessage := false; onOpen := false |}.

Definition IsOpen (w : WebSocketAdapter) : bool :=
  match socket w with
  | Some _ => true
  | None => false
  end.

Definition Close (w : WebSocketAdapter) : WebSocketAdapter * list event :=
  match socket w with
  | Some c =>
      (setSocket w None, [EConnClose c; EPrintln "WebSocket connection closed."])
  | None => (w, [])
  end.

(** [dial] is what [websocket.DefaultDialer.Dial] returns for the URL: a
    connection, or an error together with a nil connection.  Its first result
    is assigned to [w.socket] in both cases. *)
Definition Connect (w : WebSocketAdapter) (scheme host port : string)
    (createStatus : bool) (token : string) (dial : conn + error)
  : WebSocketAdapter * list event * option error :=
  let urlStr :=
    scheme +:+ host +:+ ":" +:+ port +:+ "/ws?lang=en&status=" +:+
    QueryEscape (formatBool createStatus) +:+ "&token=" +:+ QueryEscape token in
  match dial with
  | inr err => (setSocket w None, [EDial urlStr], Some err)
  | inl c =>
      (setSocket w (Some c),
       [EDial urlStr] ++ (if onOpen w then [EOnOpen] else []) ++ [EGoListen c],
       None)
  end.

(** [handleEncodedData]: the map under [field] is changed in place. *)
Definition handleEncodedData (h : heap) (msg : loc) (field : string) : heap :=
  match mapLookup h msg field with
  | Some (VMap sendMap) =>
      let h1 :=
        match mapLookup h sendMap "op_code" with
        | Some opCode =>
            mapStore h sendMap "op_code" (VString (Sprint (depthBound h) h opCode))
        | None => h
        end in
      match mapLookup h1 sendMap "data" with
      | Some (VBytes v) =>
          mapStore h1 sendMap "data" (VString (Base64.EncodeToString v))
      | Some (VString v) =>
          mapStore h1 sendMap "data"
            (VString (Base64.EncodeToString (list_byte_of_string v)))
      | _ => h1
      end
  | _ => h
  end.

Definition newline : string := String "010" EmptyString.

(** [write] is the result of [WriteMessage] should the call be reached.  The
    adapter and the store are returned as [Send] leaves them. *)
Definition Send (w : WebSocketAdapter) (h : heap) (message : value)
    (write : option error)
  : WebSocketAdapter * heap * list event * option error :=
  match socket w with
  | None => (w, h, [], Some (errorString "WebSocket is not connected"))
  | Some c =>
      let h1 :=
        match message with
        | VMap msgMap =>
            handleEncodedData (handleEncodedData h msgMap "match_data_send")
                              msgMap "party_data_send"
        | _ => h
        end in
      let printed :=
        EPrintf ("message: %+v" +:+ newline)
                (ArgValue (Sprint (depthBound h1) h1 message)) in
      match marshal (depthBound h1) h1 message with
      | None =>
          let err := UnsupportedValueError "encountered a cycle" in
          (w, h1,
           [printed; EPrintf ("Error marshaling message: %v" +:+ newline)
                             (ArgError err)],
           Some err)
      | Some msgBytes =>
          match write with
          | Some err =>
              (w, h1,
               [printed; EWriteMessage c msgBytes (Some err);
                EPrintf ("Error sending message: %v" +:+ newline) (ArgError err)],
               Some err)
          | None =>
              (w, h1,
               [printed; EWriteMessage c msgBytes None; EPrintln "no problems"],
               None)
          end
      end
  end.

(** [decodeReceivedData], on the map [json.Unmarshal] has just built. *)
Definition decodeReceivedData (msg : datum) (field : string) : datum :=
  match msg with
  | DMap m =>
      match m !! field with
      | Some (DMap dataMap) =>
          match dataMap !! "data" with
          | Some (DString encodedStr) =>
              match Base64.DecodeString encodedStr with
              | Some decodedBytes =>
                  DMap (<[field := DMap (<["data" := DBytes decodedBytes]> dataMap)]> m)
              | None => msg
              end
          | _ => msg
          end
      | _ => msg
      end
  | _ => msg
  end.

(** [json.Unmarshal(message, &decodedMessage)] with [decodedMessage] a nil
    [map[string]interface{}]: an object fills a new map, null leaves the nil
    map, anything else is an error. *)
Definition Unmarshal (message : frame) : error + datum :=
  match message with
  | Malformed reason => inl (SyntaxError reason)
  | Text (JObj m) => inr (DMap (unmarshal <$> m))
  | Text JNull => inr DNil
  | Text (JBool _) => inl (UnmarshalTypeError "bool")
  | Text (JNum _) => inl (UnmarshalTypeError "number")
  | Text (JStr _) => inl (UnmarshalTypeError "string")
  | Text (JArr _) => inl (UnmarshalTypeError "array")
  end.

(** What [ReadMessage] returns. *)
Inductive readResult : Type :=
| ReadOK (message : frame)
| ReadErr (err : error).

(** What the receive loop meets, in order: a read that returns, or another
    goroutine calling [Close] while the read is pending.  A [Close] that
    falls between two reads, after which the next read is a call on a nil
    handle, is not represented. *)
Inductive occurrence : Type :=
| Read (r : readResult)
| LocalClose.

Inductive loopState : Type :=
| Reading     (* blocked in ReadMessage *)
| Returned.   (* the loop has been left *)

Section Listen.

(** The literal [encoding/json] prints for the float64 that a number
    literal denotes.  Floating point is not represented; the loop is
    defined, and every statement about it holds, for any such function. *)
Variable float64Text : string -> string.

(** [json.Marshal] of the decoded message.  It cannot fail on what
    [json.Unmarshal] and [decodeReceivedData] build, so the branch of the
    loop that reports its error is never taken. *)
Fixpoint marshalDatum (v : datum) : json :=
  match v with
  | DNil => JNull
  | DBool b => JBool b
  | DFloat lit => JNum (float64Text lit)
  | DString s => JStr s
  | DBytes p => JStr (Base64.EncodeToString p)
  | DSlice l => JArr (List.map marshalDatum l)
  | DMap m => JObj (marshalDatum <$> m)
  end.

(** One turn of the loop for a read that returned: the adapter afterwards,
    the events, and whether the loop goes on. *)
Definition listenStep (w : WebSocketAdapter) (r : readResult)
  : WebSocketAdapter * list event * loopState :=
  match r with
  | ReadErr err =>
      match socket w with
      | Some _ =>
          let '(w', closed) := Close w in
          (w',
           (if onError w then [EOnError err] else []) ++
           (if IsUnexpectedCloseError err [] && onClose w then [EOnClose] else []) ++
           closed,
           Returned)
      | None => (w, [], Returned)
      end
  | ReadOK message =>
      match Unmarshal message with
      | inl err => (w, if onError w then [EOnError err] else [], Reading)
      | inr decodedMessage =>
          let decodedMessage :=
            decodeReceivedData (decodeReceivedData decodedMessage "match_data")
                               "party_data" in
          (w,
           if onMessage w then [EOnMessage (marshalDatum decodedMessage)] else [],
           Reading)
      end
  end.

(** [listen], run against what it meets. *)
Fixpoint listen (w : WebSocketAdapter) (script : list occurrence)
  : WebSocketAdapter * list event * loopState :=
  match script with
  | [] => (w, [], Reading)
  | LocalClose :: rest =>
      let '(w1, ev1) := Close w in
      let '(w2, ev2, st) := listen w1 rest in
      (w2, ev1 ++ ev2, st)
  | Read r :: rest =>
      match listenStep w r with
      | (w1, ev1, Returned) => (w1, ev1, Returned)
      | (w1, ev1, Reading) =>
          let '(w2, ev2, st) := listen w1 rest in
          (w2, ev1 ++ ev2, st)
      end
  end.

(** What the message-callback is handed for a frame that holds an object. *)
Definition delivered (m : gmap string json) : json :=
  marshalDatum
    (decodeReceivedData
       (decodeReceivedData (DMap (unmarshal <$> m)) "match_data") "party_data").

End Listen.

(* ===================================================================== *)
(** ** Vocabulary of the statements about the adapter                     *)
(* ===================================================================== *)

(** The two outbound kinds whose map is rewritten by [Send], and the two
    inbound kinds whose map is decoded by the receive loop. *)
Definition dataSendKind (field : string) : Prop :=
  field = "match_data_send" \/ field = "party_data_send".

Definition dataReceiveKind (field : string) : Prop :=
  field = "match_data" \/ field = "party_data".

(** A member of a JSON object, and a member of a member. *)
Definition member (j : json) (k : string) : option json :=
  match j with
  | JObj m => m !! k
  | _ => None
  end.

Definition member2 (j : json) (k1 k2 : string) : option json :=
  match member j k1 with
  | Some x => member x k2
  | None => None
  end.

(** A member of a decoded map. *)
Definition dmember (v : datum) (k : string) : option datum :=
  match v with
  | DMap m => m !! k
  | _ => None
  end.

(** The bytes of a [data] payload: a []byte as it is, a string by its
    bytes. *)
Definition payloadBytes (v : value) : option (list byte) :=
  match v with
  | VBytes p => Some p
  | VString s => Some (list_byte_of_string s)
  | _ => None
  end.

(** The first half of [handleEncodedData]: the store once [op_code] has been
    replaced. *)
Definition afterOpCode (h : heap) (sendMap : loc) : heap :=
  match mapLookup h sendMap "op_code" with
  | Some opCode =>
      mapStore h sendMap "op_code" (VString (Sprint (depthBound h) h opCode))
  | None => h
  end.

(** The store as [Send] leaves it when a handle is held. *)
Definition encoded (h : heap) (msgMap : loc) : heap :=
  handleEncodedData (handleEncodedData h msgMap "match_data_send")
                    msgMap "party_data_send".

(** The map under the other data-send key, if any, is not [l]. *)
Definition notShared (h : heap) (msgMap : loc) (field : string) (l : loc) : Prop :=
  forall other, dataSendKind other -> other <> field ->
                mapLookup h msgMap other <> Some (VMap l).

(** The text [%v] gives for an integer or a string. *)
Definition opCodeText (opCode : value) (text : string) : Prop :=
  (forall n, opCode = VInt n -> text = formatInt n) /\
  (forall s, opCode = VString s -> text = s).

(** Neither a map nor a slice. *)
Definition scalar (v : value) : Prop :=
  match v with
  | VMap _ | VSlice _ => False
  | _ => True
  end.

(** The map at [l], if there is one, holds scalars only. *)
Definition flatMap (h : heap) (l : loc) : Prop :=
  forall m, h !! l = Some m -> map_Forall (fun _ v => scalar v) m.

(** An envelope as the protocol has them: a map of scalars and of maps of
    scalars, none of which is the envelope itself. *)
Definition flatEnvelope (h : heap) (r : loc) : Prop :=
  exists top,
    h !! r = Some top /\
    map_Forall (fun _ v => scalar v \/ exists l, v = VMap l /\ l <> r /\ flatMap h l) top.

(** Every member of [h'] is the member [h] has there, or a string put in the
    place of one. *)
Definition rewritten (h h' : heap) : Prop :=
  forall x k v',
    mapLookup h' x k = Some v' ->
    mapLookup h x k = Some v' \/
    (exists t, v' = VString t) /\ is_Some (mapLookup h x k).

(** The error a returned read carries, if any: the read's own, or that of
    parsing the frame. *)
Definition readFailure (r : readResult) : option error :=
  match r with
  | ReadErr err => Some err
  | ReadOK message =>
      match Unmarshal message with
      | inl err => Some err
      | inr _ => None
      end
  end.

(** The calls the loop makes for an error, each only if the callback is
    set. *)
Definition onErrorCall (w : WebSocketAdapter) (err : error) : list event :=
  if onError w then [EOnError err] else [].

Definition onCloseCall (w : WebSocketAdapter) (err : error) : list event :=
  if IsUnexpectedCloseError err [] && onClose w then [EOnClose] else [].

(* ===================================================================== *)
(** ** Session-aware client (client.go)                                   *)
(* ===================================================================== *)

Definition DefaultExpiredTimespanMs : Z := 5 * 60 * 1000.

(** int64 arithmetic wraps around. *)
Definition wrap64 (z : Z) : Z := (z + 2 ^ 63) mod 2 ^ 64 - 2 ^ 63.

(** Modelled from the spec: the [Session] type, which is declared in a file
    that is not among the sources.  The fields are the attributes the spec
    lists (access token, refresh token, freshly-created flag, creation
    time, the two optional expiry times), under the names [client.go] uses
    for them. *)
Record Session : Type := mkSession {
  Token : string;
  RefreshToken : string;
  Created : bool;
  CreatedAt : Z;
  ExpiresAt : option Z;          (* *int64, nil when unknown *)
  RefreshExpiresAt : option Z    (* *int64, nil when unknown *)
}.

Record ApiSession : Type := mkApiSession {
  apiCreated : bool;
  apiRefreshToken : string;
  apiToken : string
}.

(** [Vars] is nil when the caller passes no variables. *)
Record ApiSessionRefreshRequest : Type := mkRefreshRequest {
  reqToken : string;
  reqVars : option (gmap string string)
}.

(** A request put to the REST surface. *)
Inductive apiCall : Type :=
| CallSessionRefresh (basicAuthUsername basicAuthPassword : string)
    (body : ApiSessionRefreshRequest) (options : gmap string string)
| CallAddGroupUsers (bearerToken groupId : string) (userIds : list string)
    (options : gmap string string)
| CallAddFriends (bearerToken : string) (ids usernames : list string)
    (options : gmap string string).

(** The REST surface is an outside collaborator: each method is given by the
    answer it returns, which may depend on the requests made before. *)
Record NakamaApi : Type := mkApi {
  SessionRefresh : list apiCall -> string -> string -> ApiSessionRefreshRequest ->
                   gmap string string -> error + ApiSession;
  ApiAddGroupUsers : list apiCall -> string -> string -> list string ->
                     gmap string string -> error + option json;
  ApiAddFriends : list apiCall -> string -> list string -> list string ->
                  gmap string string -> error + option json
}.

Record Client : Type := mkClient {
  ExpiredTimespanMs : Z;
  ApiClient : NakamaApi;
  ServerKey : string;
  Host : string;
  Port : string;
  UseSSL : bool;
  Timeout : Z;
  AutoRefreshSession : bool
}.

(** What the client operations read and leave behind: the clock
    ([time.Now().UnixMilli()]), the requests made so far, oldest first, and
    the lines written with [log.Println]. *)
Record world : Type := mkWorld {
  now : Z;
  requests : list apiCall;
  logged : list string
}.

Definition request (σ : world) (call : apiCall) : world :=
  {| now := now σ; requests := requests σ ++ [call]; logged := logged σ |}.

Definition Println (σ : world) (line : string) : world :=
  {| now := now σ; requests := requests σ; logged := logged σ ++ [line] |}.

Definition lifetimeWarning : string :=
  "Session lifetime too short, please set '--session.token_expiry_sec' option. See the documentation for more info: https://heroiclabs.com/docs/nakama/getting-started/configuration/#session".

Definition refreshLifetimeWarning : string :=
  "Session refresh lifetime too short, please set '--session.refresh_token_expiry_sec' option. See the documentation for more info: https://heroiclabs.com/docs/nakama/getting-started/configuration/#session".

Section SessionAwareClient.

(** The two methods of [Session] that [client.go] calls; their bodies are
    not among the sources.  [IsExpired s t] tells whether the access token
    of [s] has expired at [t] seconds; [Update s token refreshToken] is [s]
    after [s.Update(token, refreshToken)]. *)
Variable IsExpired : Session -> Z -> bool.
Variable Update : Session -> string -> string -> Session.

(** [RefreshSession].  A nil [session] is [None].  The results are the pair
    the function returns, the object [session] points to afterwards, and
    the world. *)
Definition RefreshSession (c : Client) (session : option Session)
    (vars : option (gmap string string)) (σ : world)
  : (option Session * option error) * option Session * world :=
  match session with
  | None =>
      ((None, Some (errorString "cannot refresh a null session")), None, σ)
  | Some s =>
      let σ1 :=
        match ExpiresAt s with
        | Some e =>
            if wrap64 (e - CreatedAt s) <? 70 then Println σ lifetimeWarning else σ
        | None => σ
        end%Z in
      let σ2 :=
        match RefreshExpiresAt s with
        | Some e =>
            if wrap64 (e - CreatedAt s) <? 3700
            then Println σ1 refreshLifetimeWarning else σ1
        | None => σ1
        end%Z in
      let body := {| reqToken := RefreshToken s; reqVars := vars |} in
      let σ3 := request σ2 (CallSessionRefresh (ServerKey c) EmptyString body ∅) in
      match SessionRefresh (ApiClient c) (requests σ2) (ServerKey c) EmptyString body ∅ with
      | inl err => ((None, Some err), Some s, σ3)
      | inr apiSession =>
          let s' := Update s (apiToken apiSession) (apiRefreshToken apiSession) in
          ((Some s', None), Some s', σ3)
      end
  end.

(** The check made before every authenticated call. *)
Definition refreshDue (c : Client) (session : Session) (σ : world) : bool :=
  AutoRefreshSession c
  && negb (String.eqb (RefreshToken session) EmptyString)
  && IsExpired session (Z.quot (wrap64 (now σ + ExpiredTimespanMs c)) 1000).

(** The gate itself: [RefreshSession] when due.  The results are the error
    to return, if any, the session object afterwards, and the world. *)
Definition refreshIfDue (c : Client) (session : Session) (σ : world)
  : option error * Session * world :=
  if refreshDue c session σ
  then match RefreshSession c (Some session) None σ with
       | ((_, err), Some session', σ') => (err, session', σ')
       | ((_, err), None, σ') => (err, session, σ')
       end
  else (None, session, σ).

(** [AddGroupUsers], called with a session that is not nil. *)
Definition AddGroupUsers (c : Client) (session : Session) (groupId : string)
    (ids : list string) (σ : world)
  : (bool * option error) * Session * world :=
  match refreshIfDue c session σ with
  | (Some err, session1, σ1) => ((false, Some err), session1, σ1)
  | (None, session1, σ1) =>
      let σ2 := request σ1 (CallAddGroupUsers (Token session1) groupId ids ∅) in
      match ApiAddGroupUsers (ApiClient c) (requests σ1) (Token session1)
                             groupId ids ∅ with
      | inl err => ((false, Some err), session1, σ2)
      | inr response => ((bool_decide (response <> None), None), session1, σ2)
      end
  end.

(** [AddFriends], called with a session that is not nil. *)
Definition AddFriends (c : Client) (session : Session) (ids usernames : list string)
    (σ : world)
  : (bool * option error) * Session * world :=
  match refreshIfDue c session σ with
  | (Some err, session1, σ1) => ((false, Some err), session1, σ1)
  | (None, session1, σ1) =>
      let σ2 := request σ1 (CallAddFriends (Token session1) ids usernames ∅) in
      match ApiAddFriends (ApiClient c) (requests σ1) (Token session1)
                          ids usernames ∅ with
      | inl err => ((false, Some err), session1, σ2)
      | inr response => ((bool_decide (response <> None), None), session1, σ2)
      end
  end.

End SessionAwareClient.

(** *** Vocabulary of the statements about the client *)

(** The world after the two advisory checks of [RefreshSession]. *)
Definition advised (s : Session) (σ : world) : world :=
  let σ1 :=
    match ExpiresAt s with
    | Some e =>
        if (wrap64 (e - CreatedAt s) <? 70)%Z then Println σ lifetimeWarning else σ
    | None => σ
    end in
  match RefreshExpiresAt s with
  | Some e =>
      if (wrap64 (e - CreatedAt s) <? 3700)%Z
      then Println σ1 refreshLifetimeWarning else σ1
  | None => σ1
  end.

(** The refresh request for a session, and the answer of the REST surface
    to it in a given world. *)
Definition refreshCall (c : Client) (s : Session) (vars : option (gmap string string))
  : apiCall :=
  CallSessionRefresh (ServerKey c) EmptyString
    {| reqToken := RefreshToken s; reqVars := vars |} ∅.

Definition refreshAnswer (c : Client) (s : Session)
    (vars : option (gmap string string)) (σ : world) : error + ApiSession :=
  SessionRefresh (ApiClient c) (requests σ) (ServerKey c) EmptyString
    {| reqToken := RefreshToken s; reqVars := vars |} ∅.

(** What an authenticated operation returns for the answer to its own
    request. *)
Definition underlyingAnswer {A : Type} (answer : error + option A)
  : bool * option error :=
  match answer with
  | inl err => (false, Some err)
  | inr response => (bool_decide (response <> None), None)
  end.

(* ===================================================================== *)
(** ** A worked scenario                                                  *)
(* ===================================================================== *)

Definition scenarioAdapter : WebSocketAdapter :=
  {| socket := Some 5; onClose := true; onError := true;
     onMessage := true; onOpen := true |}.

Definition scenarioPayload : list byte := [xde; xad; xbe; xef].

(** [{match_data_send: {op_code: 7, data: bytes(0xDE,0xAD,0xBE,0xEF)}}], the
    envelope at location 1 and its inner map at location 2. *)
Definition scenarioStore : heap :=
  {[ 1%positive := {[ "match_data_send" := VMap 2%positive ]};
     2%positive := {[ "op_code" := VInt 7; "data" := VBytes scenarioPayload ]} ]}.

Definition scenarioSent : WebSocketAdapter * heap * list event * option error :=
  Send scenarioAdapter scenarioStore (VMap 1%positive) None.

Definition scenarioWire : json :=
  JObj {[ "match_data_send" :=
            JObj {[ "op_code" := JStr "7"; "data" := JStr "3q2+7w==" ]} ]}.

Definition sameText (lit : string) : string := lit.

(** The same envelope with its inner map under both data-send keys. *)
Definition sharedStore : heap :=
  {[ 1%positive := {[ "match_data_send" := VMap 2%positive;
                      "party_data_send" := VMap 2%positive ]};
     2%positive := {[ "op_code" := VInt 7; "data" := VBytes scenarioPayload ]} ]}.

(** An expiry check that holds once [t] is past the expiry time, and an
    update that replaces the two tokens. *)
Definition scenarioIsExpired (s : Session) (t : Z) : bool :=
  match ExpiresAt s with
  | Some e => (e - t <? 0)%Z
  | None => false
  end.

Definition scenarioUpdate (s : Session) (token refreshToken : string) : Session :=
  {| Token := token; RefreshToken := refreshToken; Created := Created s;
     CreatedAt := CreatedAt s; ExpiresAt := ExpiresAt s;
     RefreshExpiresAt := RefreshExpiresAt s |}.

(** A server that renews the refresh token r1 and refuses any other. *)
Definition scenarioApi : NakamaApi :=
  {| SessionRefresh := fun _ _ _ body _ =>
       if String.eqb (reqToken body) "r1"
       then inr {| apiCreated := false; apiRefreshToken := "r2"; apiToken := "t2" |}
       else inl (errorString "401 Unauthorized");
     ApiAddGroupUsers := fun _ _ _ _ _ => inr (Some (JObj ∅));
     ApiAddFriends := fun _ _ _ _ _ => inr (Some (JObj ∅)) |}.

Definition scenarioClient : Client :=
  {| ExpiredTimespanMs := DefaultExpiredTimespanMs; ApiClient := scenarioApi;
     ServerKey := "defaultkey"; Host := "127.0.0.1"; Port := "7350";
     UseSSL := false; Timeout := 7000; AutoRefreshSession := true |}.

Definition scenarioSession (refreshToken : string) : Session :=
  {| Token := "t1"; RefreshToken := refreshToken; Created := false;
     CreatedAt := 1000; ExpiresAt := Some 1060%Z; RefreshExpiresAt := Some 4600%Z |}.

Definition scenarioWorld : world :=
  {| now := 2000000; requests := []; logged := [] |}.

(* ===================================================================== *)
(** ** Vocabulary of the further statements about the adapter             *)
(* ===================================================================== *)

(** The projections of what [Send] returns. *)
Definition sentAdapter (w : WebSocketAdapter) (h : heap) (message : value)
    (write : option error) : WebSocketAdapter :=
  fst (fst (fst (Send w h message write))).

Definition sentStore (w : WebSocketAdapter) (h : heap) (message : value)
    (write : option error) : heap :=
  snd (fst (fst (Send w h message write))).





Definition isConnClose (e : event) : bool :=
  match e with
  | EConnClose _ => true
  | _ => false
  end.

Definition isOnClose (e : event) : bool :=
  match e with
  | EOnClose => true
  | _ => false
  end.

Definition isOnError (e : event) : bool :=
  match e with
  | EOnError _ => true
  | _ => false
  end.



(** The three projections of what the loop returns. *)
Definition loopAdapter (r : WebSocketAdapter * list event * loopState)
  : WebSocketAdapter := fst (fst r).

Definition loopEvents (r : WebSocketAdapter * list event * loopState)
  : list event := snd (fst r).

Definition loopEnd (r : WebSocketAdapter * list event * loopState)
  : loopState := snd r.

(** A read in the script returned an error. *)
Definition isReadError (o : occurrence) : bool :=
  match o with
  | Read (ReadErr _) => true
  | _ => false
  end.

(** The characters [url.QueryEscape] lets through or produces. *)
Definition queryChar (c : ascii) : bool :=
  (unreserved c || Ascii.eqb c "+" || Ascii.eqb c "%")%bool.

Fixpoint allChars (P : ascii -> bool) (s : string) : bool :=
  match s with
  | EmptyString => true
  | String c s' => (P c && allChars P s')%bool
  end.

Section FurtherListen.

Variable float64Text : string -> string.



(** Every number literal of a document is one [encoding/json] prints as it
    stands. *)
Inductive NumbersKept : json -> Prop :=
| NK_null : NumbersKept JNull
| NK_bool (b : bool) : NumbersKept (JBool b)
| NK_num (lit : string) : float64Text lit = lit -> NumbersKept (JNum lit)
| NK_str (s : string) : NumbersKept (JStr s)
| NK_arr (l : list json) :
    (forall x, In x l -> NumbersKept x) -> NumbersKept (JArr l)
| NK_obj (m : gmap string json) :
    (forall k x, m !! k = Some x -> NumbersKept x) -> NumbersKept (JObj m).

End FurtherListen.

(** The URL [Connect] builds, and the projections of what it returns. *)
Definition connectUrl (scheme host port : string) (createStatus : bool)
    (escapedToken : string) : string :=
  scheme +:+ host +:+ ":" +:+ port +:+ "/ws?lang=en&status=" +:+
  formatBool createStatus +:+ "&token=" +:+ escapedToken.

Definition connectedAdapter (r : WebSocketAdapter * list event * option error)
  : WebSocketAdapter := fst (fst r).

Definition connectEvents (r : WebSocketAdapter * list event * option error)
  : list event := snd (fst r).

(** The four callbacks of two adapters are set alike. *)
Definition sameCallbacks (w w' : WebSocketAdapter) : Prop :=
  onClose w' = onClose w /\ onError w' = onError w
  /\ onMessage w' = onMessage w /\ onOpen w' = onOpen w.

(* ===================================================================== *)
(** ** client.go: construction and authentication                         *)
(* ===================================================================== *)

Definition DefaultHost : string := "127.0.0.1".
Definition DefaultPort : string := "7350".
Definition DefaultServerKey : string := "defaultkey".
Definition DefaultTimeoutMs : Z := 7000.

(** The three fields of the [NakamaApi] struct, in the order of its
    declaration.  What its methods answer is the record [NakamaApi] above. *)
Record NakamaApiFields : Type := mkApiFields {
  apiServerKey : string;
  BasePath : string;
  TimeoutMs : Z
}.

(** [NewClient].  The client is returned together with the fields of the
    [NakamaApi] it builds; [remote] is what the server reached through it
    answers. *)
Definition NewClient (remote : NakamaApi) (serverKey host port : string)
    (useSSL : bool) (timeout : Z) (autoRefreshSession : bool)
  : Client * NakamaApiFields :=
  let serverKey := if String.eqb serverKey EmptyString then DefaultServerKey else serverKey in
  let host := if String.eqb host EmptyString then DefaultHost else host in
  let port := if String.eqb port EmptyString then DefaultPort else port in
  let timeout := if (timeout =? 0)%Z then DefaultTimeoutMs else timeout in
  let scheme := if useSSL then "https://" else "http://" in
  let basePath := scheme +:+ host +:+ ":" +:+ port in
  ({| ExpiredTimespanMs := DefaultExpiredTimespanMs;
      ApiClient := remote;
      ServerKey := serverKey;
      Host := host;
      Port := port;
      UseSSL := useSSL;
      Timeout := timeout;
      AutoRefreshSession := autoRefreshSession |},
   {| apiServerKey := serverKey; BasePath := basePath; TimeoutMs := timeout |}).

(** The bodies of the three authentication requests: [ApiAccountApple],
    [ApiAccountCustom] and [ApiAccountDevice]. *)
Inductive account : Type :=
| ApiAccountApple (token : string) (vars : option (gmap string string))
| ApiAccountCustom (id : string) (vars : option (gmap string string))
| ApiAccountDevice (id : string) (vars : option (gmap string string)).

(** A call of one of the authentication methods of the REST surface; [create]
    and [username] are pointers, nil when not given. *)
Record authCall : Type := mkAuthCall {
  authUsername : string;
  authPassword : string;
  authBody : account;
  authCreate : option bool;
  authName : option string;
  authOptions : gmap string string
}.

(** The session an authentication builds from the answer: the two tokens and
    the created flag; every other field keeps its zero value. *)
Definition sessionOf (apiSession : ApiSession) : Session :=
  {| Token := apiToken apiSession;
     RefreshToken := apiRefreshToken apiSession;
     Created := apiCreated apiSession;
     CreatedAt := 0;
     ExpiresAt := None;
     RefreshExpiresAt := None |}.

(** The common shape of the three functions: the call made and the pair
    returned, for the answer [answer] the REST surface gives to the call. *)
Definition authenticate (answer : authCall -> error + ApiSession) (c : Client)
    (body : account) (create : option bool) (username : option string)
  : authCall * (option Session * option error) :=
  let call := {| authUsername := ServerKey c; authPassword := EmptyString;
                 authBody := body; authCreate := create; authName := username;
                 authOptions := ∅ |} in
  match answer call with
  | inl err => (call, (None, Some err))
  | inr apiSession => (call, (Some (sessionOf apiSession), None))
  end.

Definition AuthenticateApple (answer : authCall -> error + ApiSession) (c : Client)
    (token : string) (create : option bool) (username : option string)
    (vars : option (gmap string string))
  : authCall * (option Session * option error) :=
  authenticate answer c (ApiAccountApple token vars) create username.

Definition AuthenticateCustom (answer : authCall -> error + ApiSession) (c : Client)
    (id : string) (create : option bool) (username : option string)
    (vars : option (gmap string string))
  : authCall * (option Session * option error) :=
  authenticate answer c (ApiAccountCustom id vars) create username.

Definition AuthenticateDevice (answer : authCall -> error + ApiSession) (c : Client)
    (id : string) (create : option bool) (username : option string)
    (vars : option (gmap string string))
  : authCall * (option Session * option error) :=
  authenticate answer c (ApiAccountDevice id vars) create username.

(** The function of [client.go] that sends a given body. *)
Definition authenticateWith (answer : authCall -> error + ApiSession) (c : Client)
    (body : account) (create : option bool) (username : option string)
  : authCall * (option Session * option error) :=
  match body with
  | ApiAccountApple token vars => AuthenticateApple answer c token create username vars
  | ApiAccountCustom id vars => AuthenticateCustom answer c id create username vars
  | ApiAccountDevice id vars => AuthenticateDevice answer c id create username vars
  end.

(** The lines [RefreshSession] has to log for a session, the lifetimes taken
    without wrap-around. *)
Definition warnings (s : Session) : list string :=
  (match ExpiresAt s with
   | Some e => if (e - CreatedAt s <? 70)%Z then [lifetimeWarning] else []
   | None => []
   end) ++
  (match RefreshExpiresAt s with
   | Some e => if (e - CreatedAt s <? 3700)%Z then [refreshLifetimeWarning] else []
   | None => []
   end).

(** A difference of two times that int64 holds. *)
Definition fits64 (z : Z) : Prop := (- 2 ^ 63 <= z < 2 ^ 63)%Z.

Definition lifetimesFit (s : Session) : Prop :=
  (forall e, ExpiresAt s = Some e -> fits64 (e - CreatedAt s))
  /\ (forall e, RefreshExpiresAt s = Some e -> fits64 (e - CreatedAt s)).

(** One of the three conditions of the gate fails. *)
Definition gateClosed (IsExpired : Session -> Z -> bool) (c : Client)
    (s : Session) (σ : world) : Prop :=
  AutoRefreshSession c = false
  \/ RefreshToken s = EmptyString
  \/ IsExpired s (Z.quot (wrap64 (now σ + ExpiredTimespanMs c)) 1000) = false.

(* ===================================================================== *)
(** ** The REST surface: Healthcheck, DeleteAccount, GetAccount           *)
(* ===================================================================== *)





Section RestSurface.

(** [buildFullUrl] is a method whose body is not among the sources: it is
    given the base path, the path and the query parameters, which are empty
    in the three methods here. *)
Variable buildFullUrl : string -> string -> gmap string (list string) -> string.






End RestSurface.

(** ** Further scenarios *)

(** An envelope of another kind:
    [{channel_message_send: {channel_id: room, content: hi}}]. *)
Definition chatStore : heap :=
  {[ 1%positive := {[ "channel_message_send" := VMap 2%positive ]};
     2%positive := {[ "channel_id" := VString "room";
                      "content" := VString "hi" ]} ]}.


(** An inbound match_data frame with the scenario's payload. *)
Definition inboundFrame : gmap string json :=
  {[ "match_data" := JObj {[ "op_code" := JStr "7"; "data" := JStr "3q2+7w==" ]} ]}.

(** An inbound frame of another kind, with a number in it. *)
Definition notificationFrame : gmap string json :=
  {[ "notifications" :=
       JObj {[ "notifications" :=
                 JArr [JObj {[ "code" := JNum "2"; "persistent" := JBool true;
                               "subject" := JStr "hello" ]}] ]} ]}.

(* ===================================================================== *)
(** * Properties                                                          *)
(* ===================================================================== *)

(** ** encoding/base64: decoding undoes encoding *)

Module Base64Facts.
Import Base64.
Local Open Scope N_scope.

Lemma land_shiftl_low (a b k : N) : b < 2 ^ k -> N.land (N.shiftl a k) b = 0.
Proof.
  intros Hb. apply N.bits_inj_0. intros i. rewrite N.land_spec.
  destruct (N.lt_ge_cases i k) as [Hi | Hi].
  - rewrite N.shiftl_spec_low by exact Hi. reflexivity.
  - destruct (N.eq_dec b 0) as [-> | Hnz].
    + rewrite N.bits_0. apply andb_false_r.
    + rewrite (N.bits_above_log2 b i), andb_false_r; [reflexivity |].
      apply N.log2_lt_pow2; [lia |].
      eapply N.lt_le_trans; [exact Hb |]. apply N.pow_le_mono_r; lia.
Qed.

Lemma lor_shiftl_add (a b k : N) :
  b < 2 ^ k -> N.lor (N.shiftl a k) b = a * 2 ^ k + b.
Proof.
  intros Hb. rewrite <- N.lxor_lor by (apply land_shiftl_low; exact Hb).
  rewrite <- N.add_nocarry_lxor by (apply land_shiftl_low; exact Hb).
  rewrite N.shiftl_mul_pow2. reflexivity.
Qed.

Lemma land_63 (a : N) : N.land a 63 = a mod 64.
Proof. change 63 with (N.ones 6). rewrite N.land_ones. reflexivity. Qed.

Lemma land_255 (a : N) : N.land a 255 = a mod 256.
Proof. change 255 with (N.ones 8). rewrite N.land_ones. reflexivity. Qed.

Lemma byte_of_uint_to_N (x : N) (b : byte) :
  x mod 256 = Byte.to_N b -> byte_of_uint x = b.
Proof.
  intros H. unfold byte_of_uint. rewrite land_255, H, Byte.of_to_N. reflexivity.
Qed.

Lemma lor_mul_add (a b k : N) : b < 2 ^ k -> N.lor (a * 2 ^ k) b = a * 2 ^ k + b.
Proof. intros Hb. rewrite <- lor_shiftl_add by exact Hb. rewrite N.shiftl_mul_pow2. reflexivity. Qed.

Ltac pow2_lia :=
  change (2 ^ 18) with 262144 in *; change (2 ^ 16) with 65536 in *;
  change (2 ^ 12) with 4096 in *; change (2 ^ 8) with 256 in *;
  change (2 ^ 6) with 64 in *; lia.

Lemma quantumVal_add (v0 v1 v2 v3 : N) :
  v1 < 64 -> v2 < 64 -> v3 < 64 ->
  quantumVal v0 v1 v2 v3 = v0 * 262144 + v1 * 4096 + v2 * 64 + v3.
Proof.
  intros H1 H2 H3. unfold quantumVal.
  rewrite !N.shiftl_mul_pow2.
  rewrite (lor_mul_add v0 _ 18) by pow2_lia.
  replace (v0 * 2 ^ 18 + v1 * 2 ^ 12) with ((v0 * 64 + v1) * 2 ^ 12) by pow2_lia.
  rewrite (lor_mul_add _ _ 12) by pow2_lia.
  replace ((v0 * 64 + v1) * 2 ^ 12 + v2 * 2 ^ 6)
    with ((v0 * 4096 + v1 * 64 + v2) * 2 ^ 6) by pow2_lia.
  rewrite (lor_mul_add _ _ 6) by pow2_lia. pow2_lia.
Qed.

Lemma srcVal_add (n0 n1 n2 : N) :
  n1 < 256 -> n2 < 256 ->
  N.lor (N.lor (N.shiftl n0 16) (N.shiftl n1 8)) n2 = n0 * 65536 + n1 * 256 + n2.
Proof.
  intros H1 H2. rewrite !N.shiftl_mul_pow2.
  rewrite (lor_mul_add n0 _ 16) by pow2_lia.
  replace (n0 * 2 ^ 16 + n1 * 2 ^ 8) with ((n0 * 256 + n1) * 2 ^ 8) by pow2_lia.
  rewrite (lor_mul_add _ _ 8) by pow2_lia. pow2_lia.
Qed.

Lemma sextet_lt (x : N) : N.land x 63 < 64.
Proof. rewrite land_63. apply N.mod_lt. discriminate. Qed.

Lemma N_lt_64_inv (P : N -> Prop) :
  Forall P (List.map N.of_nat (seq 0 64)) -> forall v, v < 64 -> P v.
Proof.
  intros H v Hv. rewrite Forall_forall in H. apply H.
  apply list_elem_of_In, in_map_iff. exists (N.to_nat v). split; [lia |].
  apply in_seq. lia.
Qed.

Lemma alphabet_spec (v : N) :
  v < 64 -> decode6 (encode6 v) = Some v /\ isNewline (encode6 v) = false.
Proof.
  revert v. apply N_lt_64_inv.
  repeat (constructor; [split; vm_compute; reflexivity |]). constructor.
Qed.

Lemma decode6_encode6 (v : N) : v < 64 -> decode6 (encode6 v) = Some v.
Proof. intros H. apply alphabet_spec, H. Qed.

Lemma encode6_not_newline (v : N) : v < 64 -> isNewline (encode6 v) = false.
Proof. intros H. apply alphabet_spec, H. Qed.

Lemma list_ind3 {A : Type} (P : list A -> Prop) :
  P [] -> (forall a, P [a]) -> (forall a b, P [a; b]) ->
  (forall a b c l, P l -> P (a :: b :: c :: l)) -> forall l, P l.
Proof.
  intros H0 H1 H2 H3.
  refine (fix F (l : list A) : P l :=
            match l with
            | [] => H0
            | [a] => H1 a
            | [a; b] => H2 a b
            | a :: b :: c :: l' => H3 a b c l' (F l')
            end).
Qed.

Lemma to_N_lt (b : byte) : Byte.to_N b < 256.
Proof. pose proof (Byte.to_N_bounded b). lia. Qed.

Ltac euclid := zify; Z.to_euclidean_division_equations; lia.

Lemma decodeChars_encodeChars (p : list byte) :
  decodeChars (encodeChars p) = Some p.
Proof.
  induction p as [| b0 | b0 b1 | b0 b1 b2 rest IH] using list_ind3.
  - reflexivity.
  - pose proof (to_N_lt b0) as H0.
    cbn [encodeChars decodeChars].
    rewrite !decode6_encode6 by apply sextet_lt.
    change (decode6 StdPadding) with (@None N).
    rewrite bool_decide_eq_true_2 by reflexivity. 
    change (Ascii.eqb StdPadding StdPadding) with true. cbn [andb].
    f_equal. f_equal.
    apply byte_of_uint_to_N.
    rewrite quantumVal_add by (try apply sextet_lt; lia).
    rewrite !land_63, !N.shiftr_div_pow2, N.shiftl_mul_pow2.
    change (2 ^ 18) with 262144; change (2 ^ 16) with 65536;
    change (2 ^ 12) with 4096. euclid.
  - pose proof (to_N_lt b0) as H0. pose proof (to_N_lt b1) as H1.
    cbn [encodeChars decodeChars].
    rewrite !decode6_encode6 by apply sextet_lt.
    change (decode6 StdPadding) with (@None N).
    rewrite bool_decide_eq_true_2 by reflexivity.
    change (Ascii.eqb StdPadding StdPadding) with true. cbn [andb].
    rewrite quantumVal_add by (try apply sextet_lt; lia).
    replace (N.lor (N.shiftl (Byte.to_N b0) 16) (N.shiftl (Byte.to_N b1) 8))
      with (Byte.to_N b0 * 65536 + Byte.to_N b1 * 256).
    2:{ rewrite !N.shiftl_mul_pow2, (lor_mul_add _ _ 16) by pow2_lia. pow2_lia. }
    rewrite !land_63, !N.shiftr_div_pow2.
    change (2 ^ 18) with 262144; change (2 ^ 16) with 65536;
    change (2 ^ 12) with 4096; change (2 ^ 8) with 256; change (2 ^ 6) with 64.
    f_equal. f_equal; [| f_equal]; apply byte_of_uint_to_N; euclid.
  - pose proof (to_N_lt b0) as H0. pose proof (to_N_lt b1) as H1.
    pose proof (to_N_lt b2) as H2.
    cbn [encodeChars encodeQuantum app decodeChars].
    rewrite !decode6_encode6 by apply sextet_lt.
    rewrite IH. cbn [option_map].
    rewrite quantumVal_add by (try apply sextet_lt; lia).
    rewrite srcVal_add by assumption.
    rewrite !land_63, !N.shiftr_div_pow2.
    change (2 ^ 18) with 262144; change (2 ^ 16) with 65536;
    change (2 ^ 12) with 4096; change (2 ^ 8) with 256; change (2 ^ 6) with 64.
    f_equal. f_equal; [| f_equal; [| f_equal]]; apply byte_of_uint_to_N; euclid.
Qed.

Lemma encodeChars_no_newline (p : list byte) :
  List.filter (fun c => negb (isNewline c)) (encodeChars p) = encodeChars p.
Proof.
  induction p as [| b0 | b0 b1 | b0 b1 b2 rest IH] using list_ind3.
  - reflexivity.
  - cbn [encodeChars List.filter].
    rewrite !encode6_not_newline by apply sextet_lt. reflexivity.
  - cbn [encodeChars List.filter].
    rewrite !encode6_not_newline by apply sextet_lt. reflexivity.
  - cbn [encodeChars encodeQuantum app List.filter].
    rewrite !encode6_not_newline by apply sextet_lt. cbn [negb].
    rewrite IH. reflexivity.
Qed.

Theorem DecodeString_EncodeToString (p : list byte) :
  DecodeString (EncodeToString p) = Some p.
Proof.
  unfold DecodeString, EncodeToString.
  rewrite list_ascii_of_string_of_list_ascii, encodeChars_no_newline.
  apply decodeChars_encodeChars.
Qed.

End Base64Facts.

(** ** Integers and their digits *)



(** ** The store of maps *)

Lemma mapLookup_mapStore_eq (h : heap) (r : loc) (k : string) (v : value) :
  is_Some (h !! r) -> mapLookup (mapStore h r k v) r k = Some v.
Proof.
  intros [m Hm]. unfold mapLookup, mapStore. rewrite Hm.
  rewrite lookup_insert_eq. apply lookup_insert_eq.
Qed.

Lemma mapLookup_mapStore_ne (h : heap) (r r' : loc) (k k' : string) (v : value) :
  r' <> r \/ k' <> k ->
  mapLookup (mapStore h r k v) r' k' = mapLookup h r' k'.
Proof.
  intros Hne. unfold mapLookup, mapStore.
  destruct (h !! r) as [m |] eqn:Hm; [| reflexivity].
  destruct (decide (r' = r)) as [-> | Hr].
  - rewrite lookup_insert_eq, Hm.
    destruct Hne as [Hne | Hne]; [congruence |].
    apply lookup_insert_ne. congruence.
  - rewrite lookup_insert_ne by congruence. reflexivity.
Qed.

Lemma mapLookup_is_Some (h : heap) (r : loc) (k : string) (v : value) :
  mapLookup h r k = Some v -> is_Some (h !! r).
Proof. unfold mapLookup. destruct (h !! r); [eauto | discriminate]. Qed.

Lemma mapStore_is_Some (h : heap) (r x : loc) (k : string) (v : value) :
  is_Some (mapStore h r k v !! x) <-> is_Some (h !! x).
Proof.
  unfold mapStore. destruct (h !! r) as [m |] eqn:Hm; [| reflexivity].
  destruct (decide (x = r)) as [-> | Hx].
  - rewrite lookup_insert_eq, Hm. split; eauto.
  - rewrite lookup_insert_ne by congruence. reflexivity.
Qed.

(** ** handleEncodedData *)

Lemma handleEncodedData_unfold (h : heap) (msg : loc) (field : string) (l : loc) :
  mapLookup h msg field = Some (VMap l) ->
  handleEncodedData h msg field =
    match mapLookup (afterOpCode h l) l "data" with
    | Some (VBytes v) =>
        mapStore (afterOpCode h l) l "data" (VString (Base64.EncodeToString v))
    | Some (VString v) =>
        mapStore (afterOpCode h l) l "data"
          (VString (Base64.EncodeToString (list_byte_of_string v)))
    | _ => afterOpCode h l
    end.
Proof. intros H. unfold handleEncodedData, afterOpCode. rewrite H. reflexivity. Qed.

Lemma afterOpCode_lookup_ne (h : heap) (l x : loc) (k : string) :
  x <> l \/ k <> "op_code" ->
  mapLookup (afterOpCode h l) x k = mapLookup h x k.
Proof.
  intros Hne. unfold afterOpCode.
  destruct (mapLookup h l "op_code"); [| reflexivity].
  apply mapLookup_mapStore_ne, Hne.
Qed.

Lemma handleEncodedData_frame_key (h : heap) (msg : loc) (field : string)
    (x : loc) (k : string) :
  k <> "op_code" -> k <> "data" ->
  mapLookup (handleEncodedData h msg field) x k = mapLookup h x k.
Proof.
  intros Hop Hdata.
  destruct (mapLookup h msg field) as [[| | | | | | l] |] eqn:Hf;
    try (unfold handleEncodedData; rewrite Hf; reflexivity).
  rewrite (handleEncodedData_unfold _ _ _ _ Hf).
  destruct (mapLookup (afterOpCode h l) l "data") as [[| | | | | |] |];
    rewrite ?mapLookup_mapStore_ne by (right; exact Hdata);
    apply afterOpCode_lookup_ne; right; exact Hop.
Qed.

Lemma handleEncodedData_frame_loc (h : heap) (msg : loc) (field : string)
    (x : loc) (k : string) :
  mapLookup h msg field <> Some (VMap x) ->
  mapLookup (handleEncodedData h msg field) x k = mapLookup h x k.
Proof.
  intros Hx.
  destruct (mapLookup h msg field) as [[| | | | | | l] |] eqn:Hf;
    try (unfold handleEncodedData; rewrite Hf; reflexivity).
  assert (x <> l) as Hne by congruence.
  rewrite (handleEncodedData_unfold _ _ _ _ Hf).
  destruct (mapLookup (afterOpCode h l) l "data") as [[| | | | | |] |];
    rewrite ?mapLookup_mapStore_ne by (left; exact Hne);
    apply afterOpCode_lookup_ne; left; exact Hne.
Qed.

Lemma handleEncodedData_op_code (h : heap) (msg : loc) (field : string)
    (l : loc) (opCode : value) :
  mapLookup h msg field = Some (VMap l) ->
  mapLookup h l "op_code" = Some opCode ->
  mapLookup (handleEncodedData h msg field) l "op_code"
  = Some (VString (Sprint (depthBound h) h opCode)).
Proof.
  intros Hf Hop.
  assert (mapLookup (afterOpCode h l) l "op_code"
          = Some (VString (Sprint (depthBound h) h opCode))) as H1.
  { unfold afterOpCode. rewrite Hop.
    apply mapLookup_mapStore_eq. eapply mapLookup_is_Some, Hop. }
  rewrite (handleEncodedData_unfold _ _ _ _ Hf).
  destruct (mapLookup (afterOpCode h l) l "data") as [[| | | | | |] |];
    rewrite ?mapLookup_mapStore_ne by (right; discriminate); exact H1.
Qed.

Lemma handleEncodedData_data (h : heap) (msg : loc) (field : string)
    (l : loc) (payload : value) (p : list byte) :
  mapLookup h msg field = Some (VMap l) ->
  mapLookup h l "data" = Some payload ->
  payloadBytes payload = Some p ->
  mapLookup (handleEncodedData h msg field) l "data"
  = Some (VString (Base64.EncodeToString p)).
Proof.
  intros Hf Hdata Hp.
  assert (mapLookup (afterOpCode h l) l "data" = Some payload) as H1.
  { rewrite afterOpCode_lookup_ne by (right; discriminate). exact Hdata. }
  assert (is_Some (afterOpCode h l !! l)) as Hl.
  { eapply mapLookup_is_Some, H1. }
  rewrite (handleEncodedData_unfold _ _ _ _ Hf), H1.
  destruct payload; try discriminate; injection Hp as <-;
    apply mapLookup_mapStore_eq, Hl.
Qed.

Lemma Sprint_int (fuel : nat) (h : heap) (n : Z) : Sprint fuel h (VInt n) = formatInt n.
Proof. destruct fuel; reflexivity. Qed.

Lemma Sprint_string (fuel : nat) (h : heap) (s : string) : Sprint fuel h (VString s) = s.
Proof. destruct fuel; reflexivity. Qed.

Lemma marshal_string (fuel : nat) (h : heap) (s : string) :
  marshal fuel h (VString s) = Some (JStr s).
Proof. destruct fuel; reflexivity. Qed.

Lemma map_sequence_lookup {A : Type} (m : gmap string (option A)) (m' : gmap string A)
    (k : string) (x : option A) :
  map_sequence m = Some m' -> m !! k = Some x ->
  is_Some x /\ m' !! k = x.
Proof.
  unfold map_sequence. intros Hseq Hk.
  destruct (decide (map_Forall (fun _ y => is_Some y) m)) as [Hall |]; [| discriminate].
  injection Hseq as <-. split.
  - exact (Hall k x Hk).
  - rewrite lookup_omap, Hk. reflexivity.
Qed.

Lemma marshal_member (fuel : nat) (h : heap) (r : loc) (j : json) (k : string) (v : value) :
  marshal fuel h (VMap r) = Some j ->
  mapLookup h r k = Some v ->
  exists f jv, fuel = S f /\ member j k = Some jv /\ marshal f h v = Some jv.
Proof.
  intros Hm Hk. unfold mapLookup in Hk.
  destruct fuel as [| f]; [discriminate |]. cbn in Hm.
  destruct (h !! r) as [m |]; [| discriminate].
  destruct (map_sequence (marshal f h <$> m)) as [mj |] eqn:Hseq; [| discriminate].
  injection Hm as <-.
  destruct (map_sequence_lookup _ _ k (marshal f h v) Hseq) as [[jv Hjv] Hl'].
  { rewrite lookup_fmap, Hk. reflexivity. }
  exists f, jv. split; [reflexivity |]. split; [| exact Hjv].
  cbn. rewrite Hl', Hjv. reflexivity.
Qed.

(** ** Send *)

Lemma Send_store (w : WebSocketAdapter) (c : conn) (h : heap) (r : loc)
    (write : option error) :
  socket w = Some c ->
  exists ev err, Send w h (VMap r) write = (w, encoded h r, ev, err).
Proof.
  intros Hc. unfold Send, encoded. rewrite Hc.
  destruct (marshal _ _ _); [destruct write |]; eauto.
Qed.

Lemma Send_success (w : WebSocketAdapter) (h : heap) (r : loc)
    (w' : WebSocketAdapter) (h' : heap) (ev : list event) :
  Send w h (VMap r) None = (w', h', ev, None) ->
  exists c wire,
    socket w = Some c /\ w' = w /\ h' = encoded h r /\
    marshal (depthBound h') h' (VMap r) = Some wire /\
    ev = [EPrintf ("message: %+v" +:+ newline)
                  (ArgValue (Sprint (depthBound h') h' (VMap r)));
          EWriteMessage c wire None; EPrintln "no problems"].
Proof.
  unfold Send. fold (encoded h r).
  destruct (socket w) as [c |]; [| discriminate].
  destruct (marshal _ _ _) as [wire |] eqn:Hm; [| discriminate].
  intros [= <- <- <-]. exists c, wire. repeat split; try reflexivity. exact Hm.
Qed.

Lemma encoded_envelope (h : heap) (r : loc) (field : string) :
  dataSendKind field ->
  mapLookup (encoded h r) r field = mapLookup h r field.
Proof.
  intros Hk. unfold encoded.
  rewrite !handleEncodedData_frame_key by (destruct Hk as [-> | ->]; discriminate).
  reflexivity.
Qed.

Lemma holds_map_dec (o : option value) (x : loc) :
  o = Some (VMap x) \/ o <> Some (VMap x).
Proof.
  destruct o as [[| | | | | | l] |]; try (right; discriminate).
  destruct (decide (l = x)) as [-> | Hne]; [left; reflexivity | right; congruence].
Qed.

Lemma handleEncodedData_op_code_kept (h : heap) (msg : loc) (field : string)
    (x : loc) (t : string) :
  mapLookup h x "op_code" = Some (VString t) ->
  mapLookup (handleEncodedData h msg field) x "op_code" = Some (VString t).
Proof.
  intros Hx.
  destruct (holds_map_dec (mapLookup h msg field) x) as [Hf | Hf].
  - rewrite (handleEncodedData_op_code _ _ _ _ _ Hf Hx), Sprint_string. reflexivity.
  - rewrite handleEncodedData_frame_loc by exact Hf. exact Hx.
Qed.

Lemma opCodeText_Sprint (fuel : nat) (h : heap) (opCode : value) :
  opCodeText opCode (Sprint fuel h opCode).
Proof.
  split; intros ? ->; [apply Sprint_int | apply Sprint_string].
Qed.

Lemma opCodeText_again (fuel : nat) (h : heap) (opCode : value) (t : string) :
  opCodeText opCode t -> opCodeText opCode (Sprint fuel h (VString t)).
Proof. rewrite Sprint_string. trivial. Qed.

Lemma encoded_op_code (h : heap) (r : loc) (field : string) (l : loc) (opCode : value) :
  dataSendKind field ->
  mapLookup h r field = Some (VMap l) ->
  mapLookup h l "op_code" = Some opCode ->
  exists text, mapLookup (encoded h r) l "op_code" = Some (VString text)
               /\ opCodeText opCode text.
Proof.
  intros [-> | ->] Hf Hop; unfold encoded.
  - exists (Sprint (depthBound h) h opCode). split; [| apply opCodeText_Sprint].
    apply handleEncodedData_op_code_kept, handleEncodedData_op_code; assumption.
  - set (h1 := handleEncodedData h r "match_data_send").
    assert (mapLookup h1 r "party_data_send" = Some (VMap l)) as Hf1.
    { unfold h1. rewrite handleEncodedData_frame_key by discriminate. exact Hf. }
    destruct (holds_map_dec (mapLookup h r "match_data_send") l) as [Ha | Ha].
    + pose proof (handleEncodedData_op_code _ _ _ _ _ Ha Hop) as H1. fold h1 in H1.
      eexists. split.
      * apply (handleEncodedData_op_code _ _ _ _ _ Hf1 H1).
      * apply opCodeText_again, opCodeText_Sprint.
    + assert (mapLookup h1 l "op_code" = Some opCode) as H1.
      { unfold h1. rewrite handleEncodedData_frame_loc by exact Ha. exact Hop. }
      eexists. split.
      * apply (handleEncodedData_op_code _ _ _ _ _ Hf1 H1).
      * apply opCodeText_Sprint.
Qed.

Lemma encoded_data (h : heap) (r : loc) (field : string) (l : loc)
    (payload : value) (p : list byte) :
  dataSendKind field ->
  mapLookup h r field = Some (VMap l) ->
  notShared h r field l ->
  mapLookup h l "data" = Some payload ->
  payloadBytes payload = Some p ->
  mapLookup (encoded h r) l "data" = Some (VString (Base64.EncodeToString p)).
Proof.
  intros Hk Hf Hns Hdata Hp. unfold encoded. destruct Hk as [-> | ->].
  - rewrite handleEncodedData_frame_loc.
    + eapply handleEncodedData_data; eassumption.
    + rewrite handleEncodedData_frame_key by discriminate.
      apply Hns; [right; reflexivity | discriminate].
  - assert (mapLookup h r "match_data_send" <> Some (VMap l)) as Ha.
    { apply Hns; [left; reflexivity | discriminate]. }
    eapply handleEncodedData_data; [| | eassumption].
    + rewrite handleEncodedData_frame_key by discriminate. exact Hf.
    + rewrite handleEncodedData_frame_loc by exact Ha. exact Hdata.
Qed.

(** *** Send on a flat envelope *)

Lemma rewritten_refl (h : heap) : rewritten h h.
Proof. intros x k v' H. left. exact H. Qed.

Lemma rewritten_trans (h1 h2 h3 : heap) :
  rewritten h1 h2 -> rewritten h2 h3 -> rewritten h1 h3.
Proof.
  intros H12 H23 x k v' H.
  destruct (H23 x k v' H) as [H2 | [Ht [v2 H2]]].
  - exact (H12 x k v' H2).
  - right. split; [exact Ht |].
    destruct (H12 x k v2 H2) as [H1 | [_ H1]]; [eauto | exact H1].
Qed.

Lemma rewritten_mapStore (h : heap) (r : loc) (k t : string) :
  is_Some (mapLookup h r k) -> rewritten h (mapStore h r k (VString t)).
Proof.
  intros Hk x k' v' H.
  destruct (decide (x = r)) as [-> | Hx];
    [destruct (decide (k' = k)) as [-> | Hk'] |].
  - right. split; [| exact Hk].
    rewrite mapLookup_mapStore_eq in H by (destruct Hk as [v Hv]; eapply mapLookup_is_Some, Hv).
    injection H as <-. eauto.
  - left. rewrite mapLookup_mapStore_ne in H by (right; exact Hk'). exact H.
  - left. rewrite mapLookup_mapStore_ne in H by (left; exact Hx). exact H.
Qed.

Lemma rewritten_afterOpCode (h : heap) (l : loc) : rewritten h (afterOpCode h l).
Proof.
  unfold afterOpCode.
  destruct (mapLookup h l "op_code") eqn:Hop; [| apply rewritten_refl].
  apply rewritten_mapStore. rewrite Hop. eauto.
Qed.

Lemma rewritten_handleEncodedData (h : heap) (msg : loc) (field : string) :
  rewritten h (handleEncodedData h msg field).
Proof.
  destruct (mapLookup h msg field) as [[| | | | | | l] |] eqn:Hf;
    try (unfold handleEncodedData; rewrite Hf; apply rewritten_refl).
  rewrite (handleEncodedData_unfold _ _ _ _ Hf).
  eapply rewritten_trans; [apply rewritten_afterOpCode |].
  destruct (mapLookup (afterOpCode h l) l "data") as [[| | | | | |] |] eqn:Hd;
    try apply rewritten_refl;
    apply rewritten_mapStore; rewrite Hd; eauto.
Qed.

Lemma rewritten_encoded (h : heap) (r : loc) : rewritten h (encoded h r).
Proof.
  unfold encoded.
  eapply rewritten_trans; apply rewritten_handleEncodedData.
Qed.

Lemma afterOpCode_is_Some (h : heap) (l x : loc) :
  is_Some (afterOpCode h l !! x) <-> is_Some (h !! x).
Proof.
  unfold afterOpCode. destruct (mapLookup h l "op_code"); [| reflexivity].
  apply mapStore_is_Some.
Qed.

Lemma handleEncodedData_is_Some (h : heap) (msg : loc) (field : string) (x : loc) :
  is_Some (handleEncodedData h msg field !! x) <-> is_Some (h !! x).
Proof.
  destruct (mapLookup h msg field) as [[| | | | | | l] |] eqn:Hf;
    try (unfold handleEncodedData; rewrite Hf; reflexivity).
  rewrite (handleEncodedData_unfold _ _ _ _ Hf).
  destruct (mapLookup (afterOpCode h l) l "data") as [[| | | | | |] |];
    rewrite ?mapStore_is_Some; apply afterOpCode_is_Some.
Qed.

Lemma encoded_is_Some (h : heap) (r x : loc) :
  is_Some (encoded h r !! x) <-> is_Some (h !! x).
Proof. unfold encoded. rewrite !handleEncodedData_is_Some. reflexivity. Qed.

Lemma marshal_scalar (fuel : nat) (h : heap) (v : value) :
  scalar v -> is_Some (marshal fuel h v).
Proof. destruct v, fuel; cbn; intros H; try contradiction; eauto. Qed.

Lemma map_sequence_is_Some {A : Type} (m : gmap string (option A)) :
  map_Forall (fun _ x => is_Some x) m -> is_Some (map_sequence m).
Proof.
  intros H. unfold map_sequence. destruct (decide _); [eauto | contradiction].
Qed.

Lemma marshal_map_is_Some (f : nat) (h : heap) (r : loc) :
  (forall k v, mapLookup h r k = Some v -> is_Some (marshal f h v)) ->
  is_Some (marshal (S f) h (VMap r)).
Proof.
  intros H. cbn. unfold mapLookup in H.
  destruct (h !! r) as [m |]; [| eauto].
  destruct (map_sequence_is_Some (marshal f h <$> m)) as [mj Hmj].
  - intros k o Hk. rewrite lookup_fmap in Hk.
    destruct (m !! k) as [v |] eqn:Hv; [| discriminate].
    injection Hk as <-. exact (H k v Hv).
  - rewrite Hmj. cbn. eauto.
Qed.

Lemma rewritten_scalar (h h' : heap) (x : loc) :
  rewritten h h' -> flatMap h x -> flatMap h' x.
Proof.
  intros Hrw Hflat m' Hm' k v' Hk.
  assert (mapLookup h' x k = Some v') as Hl.
  { unfold mapLookup. rewrite Hm'. exact Hk. }
  destruct (Hrw x k v' Hl) as [H | [[t ->] _]]; [| exact I].
  unfold mapLookup in H. destruct (h !! x) as [m |] eqn:Hm; [| discriminate].
  exact (Hflat m Hm k v' H).
Qed.

(** X22.  The bound on the descent is enough for the envelopes of the
    protocol: on a flat envelope, with a handle held and a write that
    succeeds, [Send] writes one frame and returns no error. *)
Theorem Send_succeeds_on_flat_envelope (w : WebSocketAdapter) (c : conn)
    (h : heap) (r : loc) :
  socket w = Some c ->
  flatEnvelope h r ->
  exists printed wire,
    Send w h (VMap r) None
    = (w, encoded h r, [printed; EWriteMessage c wire None; EPrintln "no problems"], None).
Proof.
  intros Hc (top & Htop & Hflat).
  pose proof (rewritten_encoded h r) as Hrw.
  assert (is_Some (encoded h r !! r)) as [top' Htop'].
  { apply encoded_is_Some. eauto. }
  assert (exists f, size (encoded h r) = S f) as [f Hsize].
  { destruct (size (encoded h r)) eqn:Hs; [| eauto].
    apply map_size_empty_iff in Hs. rewrite Hs, lookup_empty in Htop'. discriminate. }
  assert (is_Some (marshal (depthBound (encoded h r)) (encoded h r) (VMap r)))
    as [wire Hwire].
  { unfold depthBound. apply marshal_map_is_Some. intros k v' Hk.
    assert (scalar v' \/ exists l, v' = VMap l /\ l <> r /\ flatMap h l) as Hv'.
    { destruct (Hrw r k v' Hk) as [H | [[t ->] _]]; [| left; exact I].
      unfold mapLookup in H. rewrite Htop in H. exact (Hflat k v' H). }
    destruct Hv' as [Hs | (l & -> & Hne & Hl)]; [apply marshal_scalar, Hs |].
    rewrite Hsize. apply marshal_map_is_Some. intros k2 v2 Hk2.
    apply marshal_scalar.
    pose proof (rewritten_scalar _ _ l Hrw Hl) as Hl'.
    unfold mapLookup in Hk2.
    destruct (encoded h r !! l) as [m' |] eqn:Hm'; [| discriminate].
    exact (Hl' m' Hm' k2 v2 Hk2). }
  unfold Send. rewrite Hc. fold (encoded h r). rewrite Hwire. eauto.
Qed.

(** ** The receive loop *)

Lemma member2_marshal (fuel : nat) (h : heap) (r l : loc) (wire : json)
    (field k : string) (s : string) :
  marshal fuel h (VMap r) = Some wire ->
  mapLookup h r field = Some (VMap l) ->
  mapLookup h l k = Some (VString s) ->
  member2 wire field k = Some (JStr s).
Proof.
  intros Hm Hf Hk.
  destruct (marshal_member _ _ _ _ _ _ Hm Hf) as (f1 & j1 & -> & Hj1 & Hm1).
  destruct (marshal_member _ _ _ _ _ _ Hm1 Hk) as (f2 & j2 & -> & Hj2 & Hm2).
  rewrite marshal_string in Hm2. injection Hm2 as <-.
  unfold member2. rewrite Hj1. exact Hj2.
Qed.

Lemma decodeReceivedData_other (msg : datum) (field k : string) :
  k <> field -> dmember (decodeReceivedData msg field) k = dmember msg k.
Proof.
  intros Hne. unfold decodeReceivedData.
  destruct msg as [| | | | | | m]; try reflexivity.
  destruct (m !! field) as [[| | | | | | dataMap] |]; try reflexivity.
  destruct (dataMap !! "data") as [[| | | encodedStr | | |] |]; try reflexivity.
  destruct (Base64.DecodeString encodedStr); [| reflexivity].
  cbn. apply lookup_insert_ne. congruence.
Qed.

Section Inbound.

Variable float64Text : string -> string.

Lemma listenStep_object (w : WebSocketAdapter) (m : gmap string json) :
  onMessage w = true ->
  listenStep float64Text w (ReadOK (Text (JObj m)))
  = (w, [EOnMessage (delivered float64Text m)], Reading).
Proof. intros H. unfold listenStep, delivered. cbn. rewrite H. reflexivity. Qed.

Lemma member_marshalDatum (v : datum) (k : string) :
  member (marshalDatum float64Text v) k = marshalDatum float64Text <$> dmember v k.
Proof.
  destruct v; try reflexivity. cbn. apply lookup_fmap.
Qed.

Lemma delivered_member2 (m : gmap string json) (field k s : string) :
  field <> "match_data" -> field <> "party_data" ->
  member2 (JObj m) field k = Some (JStr s) ->
  member2 (delivered float64Text m) field k = Some (JStr s).
Proof.
  intros H1 H2 Hw. unfold member2 in *. unfold delivered.
  rewrite member_marshalDatum, !decodeReceivedData_other by assumption.
  cbn in *. rewrite lookup_fmap.
  destruct (m !! field) as [x |]; [| discriminate]. cbn.
  destruct x as [| | | | | md]; try discriminate. cbn in *.
  rewrite !lookup_fmap, Hw. reflexivity.
Qed.

Lemma decodeReceivedData_bytes (m : gmap string datum) (field : string)
    (dataMap : gmap string datum) (p : list byte) :
  m !! field = Some (DMap dataMap) ->
  dataMap !! "data" = Some (DString (Base64.EncodeToString p)) ->
  decodeReceivedData (DMap m) field
  = DMap (<[field := DMap (<["data" := DBytes p]> dataMap)]> m).
Proof.
  intros Hf Hd. unfold decodeReceivedData.
  rewrite Hf, Hd, Base64Facts.DecodeString_EncodeToString. reflexivity.
Qed.

(** X23.  On the inbound kinds the loop does decode: for a match_data or
    party_data frame whose data is the base64 text of [p], the decoded map
    holds the bytes [p]; marshalled for the message-callback, they are that
    base64 text again. *)
Theorem inbound_payload_decoded_then_delivered_as_base64
    (m : gmap string json) (field : string) (p : list byte) :
  dataReceiveKind field ->
  member2 (JObj m) field "data" = Some (JStr (Base64.EncodeToString p)) ->
  exists dataMap,
    dmember (decodeReceivedData
               (decodeReceivedData (DMap (unmarshal <$> m)) "match_data")
               "party_data") field = Some (DMap dataMap)
    /\ dataMap !! "data" = Some (DBytes p)
    /\ member2 (delivered float64Text m) field "data"
       = Some (JStr (Base64.EncodeToString p)).
Proof.
  intros Hk Hw. unfold member2 in Hw. cbn in Hw.
  destruct (m !! field) as [[| | | | | md] |] eqn:Hf; try discriminate.
  cbn in Hw.
  assert ((unmarshal <$> m) !! field = Some (DMap (unmarshal <$> md))) as Hf'.
  { rewrite lookup_fmap, Hf. reflexivity. }
  assert ((unmarshal <$> md) !! "data" = Some (DString (Base64.EncodeToString p))) as Hd'.
  { rewrite lookup_fmap, Hw. reflexivity. }
  exists (<["data" := DBytes p]> (unmarshal <$> md)).
  assert (dmember (decodeReceivedData
               (decodeReceivedData (DMap (unmarshal <$> m)) "match_data")
               "party_data") field
          = Some (DMap (<["data" := DBytes p]> (unmarshal <$> md)))) as Hdec.
  { destruct Hk as [-> | ->].
    - rewrite decodeReceivedData_other by discriminate.
      rewrite (decodeReceivedData_bytes _ _ _ _ Hf' Hd'). cbn.
      apply lookup_insert_eq.
    - assert (dmember (decodeReceivedData (DMap (unmarshal <$> m)) "match_data")
                "party_data" = Some (DMap (unmarshal <$> md))) as H1.
      { rewrite decodeReceivedData_other by discriminate. exact Hf'. }
      destruct (decodeReceivedData (DMap (unmarshal <$> m)) "match_data")
        as [| | | | | | m1]; try discriminate.
      cbn in H1. rewrite (decodeReceivedData_bytes _ _ _ _ H1 Hd'). cbn.
      apply lookup_insert_eq. }
  split; [exact Hdec |].
  split; [apply lookup_insert_eq |].
  unfold member2, delivered. rewrite member_marshalDatum, Hdec. cbn.
  rewrite lookup_fmap, lookup_insert_eq. reflexivity.
Qed.

End Inbound.

Lemma dataSendKind_not_inbound (field : string) :
  dataSendKind field -> field <> "match_data" /\ field <> "party_data".
Proof. intros [-> | ->]; split; discriminate. Qed.

Lemma member2_object (j : json) (k1 k2 : string) (x : json) :
  member2 j k1 k2 = Some x -> exists m, j = JObj m.
Proof. destruct j; try discriminate. eauto. Qed.

Section RoundTrip.

Variable float64Text : string -> string.

(** C1, as amended.  A payload [p] placed in the [data] field of a
    match_data_send or party_data_send envelope (as []byte, or as a string
    with those bytes), sent while a handle is held and echoed back, reaches
    the message-callback as the standard base64 text of [p], the same text
    that went over the wire, and decoding that text gives exactly [p].  The
    inner map must not also sit under the other data-send key. *)
Theorem payload_round_trip_as_base64
    (w : WebSocketAdapter) (h : heap) (r l : loc) (field : string)
    (payload : value) (p : list byte) (h' : heap) (ev : list event) :
  onMessage w = true ->
  dataSendKind field ->
  mapLookup h r field = Some (VMap l) ->
  notShared h r field l ->
  mapLookup h l "data" = Some payload ->
  payloadBytes payload = Some p ->
  Send w h (VMap r) None = (w, h', ev, None) ->
  exists c wire echoed,
    In (EWriteMessage c wire None) ev /\
    member2 wire field "data" = Some (JStr (Base64.EncodeToString p)) /\
    listenStep float64Text w (ReadOK (Text wire)) = (w, [EOnMessage echoed], Reading) /\
    member2 echoed field "data" = Some (JStr (Base64.EncodeToString p)) /\
    Base64.DecodeString (Base64.EncodeToString p) = Some p.
Proof.
  intros Hcb Hk Hf Hns Hdata Hp Hsend.
  destruct (Send_success _ _ _ _ _ _ Hsend) as (c & wire & Hc & _ & -> & Hm & ->).
  assert (member2 wire field "data" = Some (JStr (Base64.EncodeToString p))) as Hwire.
  { eapply member2_marshal; [exact Hm | |].
    - rewrite encoded_envelope by exact Hk. exact Hf.
    - eapply encoded_data; eassumption. }
  destruct (member2_object _ _ _ _ Hwire) as [m ->].
  destruct (dataSendKind_not_inbound _ Hk) as [H1 H2].
  exists c, (JObj m), (delivered float64Text m).
  split; [right; left; reflexivity |].
  split; [exact Hwire |].
  split; [apply listenStep_object, Hcb |].
  split; [apply delivered_member2; assumption |].
  apply Base64Facts.DecodeString_EncodeToString.
Qed.


End RoundTrip.

(** C10, as amended.  When a handle is held, [Send] changes the caller's own
    map in place, whatever becomes of the marshalling and the write: the
    envelope still holds the same inner map, whose op_code is now the string
    [%v] prints for it and whose data, given as []byte or string and not
    shared with the other data-send key, is now its base64 text. *)
Theorem Send_rewrites_the_callers_map
    (w : WebSocketAdapter) (c : conn) (h : heap) (r l : loc) (field : string)
    (write : option error) :
  socket w = Some c ->
  dataSendKind field ->
  mapLookup h r field = Some (VMap l) ->
  exists h' ev err,
    Send w h (VMap r) write = (w, h', ev, err) /\
    mapLookup h' r field = Some (VMap l) /\
    (forall opCode, mapLookup h l "op_code" = Some opCode ->
       exists text, mapLookup h' l "op_code" = Some (VString text)
                    /\ opCodeText opCode text) /\
    (forall payload p,
       notShared h r field l ->
       mapLookup h l "data" = Some payload ->
       payloadBytes payload = Some p ->
       mapLookup h' l "data" = Some (VString (Base64.EncodeToString p))).
Proof.
  intros Hc Hk Hf.
  destruct (Send_store w c h r write Hc) as (ev & err & Hsend).
  exists (encoded h r), ev, err.
  split; [exact Hsend |].
  split; [rewrite encoded_envelope by exact Hk; exact Hf |].
  split.
  - intros opCode Hop. eapply encoded_op_code; eassumption.
  - intros payload p Hns Hdata Hp. eapply encoded_data; eassumption.
Qed.

(** ** Connection state *)

Lemma socket_setSocket (w : WebSocketAdapter) (s : option conn) :
  socket (setSocket w s) = s.
Proof. reflexivity. Qed.

Lemma Close_socket (w : WebSocketAdapter) : socket (fst (Close w)) = None.
Proof. unfold Close. destruct (socket w) eqn:H; [reflexivity | exact H]. Qed.

Lemma Close_closed (w : WebSocketAdapter) : socket w = None -> Close w = (w, []).
Proof. intros H. unfold Close. rewrite H. reflexivity. Qed.

(** C6.  With no handle held, [Send] returns the not-connected error at
    once: nothing is written, no event occurs, and the adapter and the
    caller's store are as they were. *)
Theorem Send_without_handle (w : WebSocketAdapter) (h : heap) (message : value)
    (write : option error) :
  socket w = None ->
  Send w h message write
  = (w, h, [], Some (errorString "WebSocket is not connected")).
Proof. intros H. unfold Send. rewrite H. reflexivity. Qed.

(** C7.  [Close] is idempotent: a second [Close] changes nothing and does
    nothing, the handle is cleared after the first, [Close] returns no error
    (it returns nothing), and neither call invokes the close-callback. *)
Theorem Close_idempotent (w : WebSocketAdapter) :
  Close (fst (Close w)) = (fst (Close w), [])
  /\ socket (fst (Close w)) = None
  /\ ~ In EOnClose (snd (Close w) ++ snd (Close (fst (Close w)))).
Proof.
  split; [apply Close_closed, Close_socket |].
  split; [apply Close_socket |].
  rewrite (Close_closed (fst (Close w)) (Close_socket w)). cbn [snd].
  rewrite app_nil_r. unfold Close.
  destruct (socket w); cbn; intros H; intuition discriminate.
Qed.

Section StateMachine.

Variable float64Text : string -> string.

Lemma listenStep_read_error_socket (w : WebSocketAdapter) (err : error) :
  socket (fst (fst (listenStep float64Text w (ReadErr err)))) = None.
Proof.
  unfold listenStep. destruct (socket w) eqn:H; [| exact H].
  unfold Close. rewrite H. reflexivity.
Qed.

(** C8.  [IsOpen] is true exactly when a handle is held: false for a new
    adapter, true after a [Connect] whose dial succeeded, false after
    [Close], and false after the receive loop has handled a read error. *)
Theorem IsOpen_iff_handle_held :
  (forall w, IsOpen w = true <-> socket w <> None)
  /\ IsOpen NewWebSocketAdapter = false
  /\ (forall w scheme host port createStatus token c,
        IsOpen (fst (fst (Connect w scheme host port createStatus token (inl c)))) = true)
  /\ (forall w, IsOpen (fst (Close w)) = false)
  /\ (forall w err,
        IsOpen (fst (fst (listenStep float64Text w (ReadErr err)))) = false).
Proof.
  split.
  { intros w. unfold IsOpen. destruct (socket w); split; congruence. }
  split; [reflexivity |].
  split; [reflexivity |].
  split.
  - intros w. unfold IsOpen. rewrite Close_socket. reflexivity.
  - intros w err. unfold IsOpen. rewrite listenStep_read_error_socket. reflexivity.
Qed.

(** C2, as amended.  On a read error with a handle held the loop calls the
    error-callback if set, the close-callback if set and the error is a
    websocket close error, then closes the adapter and returns.  On a read
    error with no handle held it returns without any call.  On a frame that
    does not parse it calls the error-callback if set and goes on with the
    next read: the adapter is not closed. *)
Theorem listen_on_read_or_parse_error (w : WebSocketAdapter) (r : readResult)
    (err : error) (rest : list occurrence) :
  readFailure r = Some err ->
  match r, socket w with
  | ReadErr _, Some c =>
      listen float64Text w (Read r :: rest)
      = (setSocket w None,
         onErrorCall w err ++ onCloseCall w err ++
         [EConnClose c; EPrintln "WebSocket connection closed."],
         Returned)
  | ReadErr _, None =>
      listen float64Text w (Read r :: rest) = (w, [], Returned)
  | ReadOK _, _ =>
      listen float64Text w (Read r :: rest)
      = (let '(w', ev, st) := listen float64Text w rest in
         (w', onErrorCall w err ++ ev, st))
  end.
Proof.
  intros Hfail. destruct r as [message | err0]; cbn in Hfail.
  - destruct (Unmarshal message) as [e |] eqn:Hu; [| discriminate].
    injection Hfail as ->.
    cbn [listen]. unfold listenStep. rewrite Hu.
    destruct (socket w); reflexivity.
  - injection Hfail as ->. cbn [listen]. unfold listenStep, Close.
    destruct (socket w) as [c |] eqn:Hc; reflexivity.
Qed.

(** Once the loop has returned, no handle is held. *)
Lemma listen_returned_closed (script : list occurrence) (w w' : WebSocketAdapter)
    (ev : list event) :
  listen float64Text w script = (w', ev, Returned) -> socket w' = None.
Proof.
  revert w ev. induction script as [| [r |] rest IH]; intros w ev H; cbn in H.
  - discriminate.
  - destruct (listenStep float64Text w r) as [[w1 ev1] st1] eqn:Hstep.
    destruct st1.
    + destruct (listen float64Text w1 rest) as [[w2 ev2] st2] eqn:Hrest.
      injection H as <- <- ->. exact (IH _ _ Hrest).
    + injection H as <- <-.
      destruct r as [message | err].
      * unfold listenStep in Hstep.
        destruct (Unmarshal message); discriminate.
      * pose proof (listenStep_read_error_socket w err) as Hs.
        rewrite Hstep in Hs. exact Hs.
  - destruct (Close w) as [w1 ev1].
    destruct (listen float64Text w1 rest) as [[w2 ev2] st2] eqn:Hrest.
    injection H as <- <- ->. exact (IH _ _ Hrest).
Qed.

End StateMachine.

(** C3, as amended.  [Connect] does not look at the handle it holds.  With
    a handle held and a dial that succeeds it returns no error, the new
    connection takes the place of the old one, which is not closed, and a
    receive loop is started for it; [Connect] fails only when the dial
    fails, with the dialer's error. *)
Theorem Connect_replaces_held_handle (w : WebSocketAdapter) (c0 : conn)
    (scheme host port : string) (createStatus : bool) (token : string) :
  socket w = Some c0 ->
  (forall c, exists ev,
      Connect w scheme host port createStatus token (inl c)
      = (setSocket w (Some c), ev, None)
      /\ ~ In (EConnClose c0) ev
      /\ In (EGoListen c) ev)
  /\ (forall err, snd (Connect w scheme host port createStatus token (inr err)) = Some err).
Proof.
  intros Hc. split.
  - intros c. eexists. split; [reflexivity |]. split.
    + cbn. destruct (onOpen w); cbn; intuition discriminate.
    + apply in_or_app. right. apply in_or_app. right. left. reflexivity.
  - reflexivity.
Qed.

(** ** The refresh gate *)

Section ClientProperties.

Variable IsExpired : Session -> Z -> bool.
Variable Update : Session -> string -> string -> Session.

Lemma advised_requests (s : Session) (σ : world) :
  requests (advised s σ) = requests σ.
Proof.
  unfold advised.
  destruct (ExpiresAt s) as [e |], (RefreshExpiresAt s) as [e' |]; cbn;
    repeat match goal with |- context [if ?b then _ else _] => destruct b end;
    reflexivity.
Qed.

Lemma RefreshSession_eq (c : Client) (s : Session)
    (vars : option (gmap string string)) (σ : world) :
  RefreshSession Update c (Some s) vars σ =
    match refreshAnswer c s vars σ with
    | inl err => ((None, Some err), Some s, request (advised s σ) (refreshCall c s vars))
    | inr a =>
        let s' := Update s (apiToken a) (apiRefreshToken a) in
        ((Some s', None), Some s', request (advised s σ) (refreshCall c s vars))
    end.
Proof.
  unfold RefreshSession, refreshAnswer, refreshCall.
  fold (advised s σ). rewrite advised_requests. reflexivity.
Qed.

(** C9.  For a session that is not nil, when the refresh request fails
    [RefreshSession] returns that very error and the session object is the
    one it was, field for field; when the request succeeds the session is
    updated in place with the two new tokens and returned. *)
Theorem RefreshSession_failure_leaves_session (c : Client) (s : Session)
    (vars : option (gmap string string)) (σ : world) :
  match refreshAnswer c s vars σ with
  | inl err =>
      exists σ', RefreshSession Update c (Some s) vars σ
                 = ((None, Some err), Some s, σ')
  | inr a =>
      exists σ', RefreshSession Update c (Some s) vars σ
                 = ((Some (Update s (apiToken a) (apiRefreshToken a)), None),
                    Some (Update s (apiToken a) (apiRefreshToken a)), σ')
  end.
Proof.
  rewrite RefreshSession_eq. destruct (refreshAnswer c s vars σ); eexists; reflexivity.
Qed.

Lemma refreshDue_true (c : Client) (s : Session) (σ : world) :
  AutoRefreshSession c = true ->
  RefreshToken s <> EmptyString ->
  IsExpired s (Z.quot (wrap64 (now σ + ExpiredTimespanMs c)) 1000) = true ->
  refreshDue IsExpired c s σ = true.
Proof.
  intros Ha Ht He. unfold refreshDue. rewrite Ha, He.
  destruct (String.eqb_spec (RefreshToken s) EmptyString); [contradiction | reflexivity].
Qed.

(** C5.  With auto-refresh on, a refresh token present and the access token
    expired at now plus the lookahead, [AddGroupUsers] and [AddFriends] make
    exactly one refresh request before anything else; if it fails they
    return its error and make no further request; if it succeeds they make
    their own request next, with the new token. *)
Theorem refresh_gate_before_call (c : Client) (s : Session) (σ : world) :
  AutoRefreshSession c = true ->
  RefreshToken s <> EmptyString ->
  IsExpired s (Z.quot (wrap64 (now σ + ExpiredTimespanMs c)) 1000) = true ->
  match refreshAnswer c s None σ with
  | inl err =>
      (forall groupId ids, exists σ',
          AddGroupUsers IsExpired Update c s groupId ids σ = ((false, Some err), s, σ')
          /\ requests σ' = requests σ ++ [refreshCall c s None])
      /\ (forall ids usernames, exists σ',
          AddFriends IsExpired Update c s ids usernames σ = ((false, Some err), s, σ')
          /\ requests σ' = requests σ ++ [refreshCall c s None])
  | inr a =>
      let s' := Update s (apiToken a) (apiRefreshToken a) in
      let before := requests σ ++ [refreshCall c s None] in
      (forall groupId ids, exists σ',
          AddGroupUsers IsExpired Update c s groupId ids σ
          = (underlyingAnswer
               (ApiAddGroupUsers (ApiClient c) before (Token s') groupId ids ∅), s', σ')
          /\ requests σ' = before ++ [CallAddGroupUsers (Token s') groupId ids ∅])
      /\ (forall ids usernames, exists σ',
          AddFriends IsExpired Update c s ids usernames σ
          = (underlyingAnswer
               (ApiAddFriends (ApiClient c) before (Token s') ids usernames ∅), s', σ')
          /\ requests σ' = before ++ [CallAddFriends (Token s') ids usernames ∅])
  end.
Proof.
  intros Ha Ht He.
  pose proof (refreshDue_true c s σ Ha Ht He) as Hdue.
  assert (refreshIfDue IsExpired Update c s σ =
          match refreshAnswer c s None σ with
          | inl err => (Some err, s, request (advised s σ) (refreshCall c s None))
          | inr a => (None, Update s (apiToken a) (apiRefreshToken a),
                      request (advised s σ) (refreshCall c s None))
          end) as Hgate.
  { unfold refreshIfDue. rewrite Hdue, RefreshSession_eq.
    destruct (refreshAnswer c s None σ); reflexivity. }
  assert (requests (request (advised s σ) (refreshCall c s None))
          = requests σ ++ [refreshCall c s None]) as Hreq.
  { cbn. rewrite advised_requests. reflexivity. }
  destruct (refreshAnswer c s None σ) as [err | a]; cbn zeta.
  - split; intros; eexists; (split; [| exact Hreq]).
    + unfold AddGroupUsers. rewrite Hgate. reflexivity.
    + unfold AddFriends. rewrite Hgate. reflexivity.
  - split; intros.
    + unfold AddGroupUsers. rewrite Hgate, Hreq.
      destruct (ApiAddGroupUsers _ _ _ _ _ _); eexists;
        (split; [reflexivity | cbn; rewrite advised_requests; reflexivity]).
    + unfold AddFriends. rewrite Hgate, Hreq.
      destruct (ApiAddFriends _ _ _ _ _ _); eexists;
        (split; [reflexivity | cbn; rewrite advised_requests; reflexivity]).
Qed.

(** When the gate does not apply, no refresh request is made: the
    operation's own request is the only one. *)
Lemma no_refresh_when_not_due (c : Client) (s : Session) (groupId : string)
    (ids : list string) (σ : world) :
  refreshDue IsExpired c s σ = false ->
  exists res σ',
    AddGroupUsers IsExpired Update c s groupId ids σ = (res, s, σ')
    /\ requests σ' = requests σ ++ [CallAddGroupUsers (Token s) groupId ids ∅].
Proof.
  intros Hdue. unfold AddGroupUsers, refreshIfDue. rewrite Hdue.
  destruct (ApiAddGroupUsers _ _ _ _ _ _); eexists _, _; split; reflexivity.
Qed.

End ClientProperties.

(** ** The scenario, worked *)

(** The frame [Send] writes for the scenario, and the store it leaves. *)
Example scenario_wire :
  exists printed,
    scenarioSent
    = (scenarioAdapter,
       {[ 1%positive := {[ "match_data_send" := VMap 2%positive ]};
          2%positive := {[ "op_code" := VString "7"; "data" := VString "3q2+7w==" ]} ]},
       [printed; EWriteMessage 5 scenarioWire None; EPrintln "no problems"],
       None).
Proof. eexists. vm_compute. reflexivity. Qed.

(** Why the inner map must not sit under both keys: it is then encoded
    twice, and data ends up as the base64 text of the base64 text. *)
Example shared_inner_map_is_encoded_twice :
  mapLookup (encoded sharedStore 1%positive) 2%positive "data"
  = Some (VString "M3EyKzd3PT0=")
  /\ Base64.DecodeString "M3EyKzd3PT0="
     = Some (list_byte_of_string "3q2+7w==").
Proof. split; vm_compute; reflexivity. Qed.

Lemma scenario_notShared : notShared scenarioStore 1%positive "match_data_send" 2%positive.
Proof.
  intros other [-> | ->] Hne; [congruence |].
  intros H. vm_compute in H. discriminate H.
Defined.

(** C1 as stated fails: in the scenario the echoed envelope reaches the
    message-callback unchanged, its data being the eight characters of the
    base64 text and not the four payload bytes. *)
Lemma echoed_payload_is_base64_text_not_raw_bytes :
  In (EWriteMessage 5 scenarioWire None) (snd (fst scenarioSent))
  /\ listenStep sameText scenarioAdapter (ReadOK (Text scenarioWire))
     = (scenarioAdapter, [EOnMessage scenarioWire], Reading)
  /\ member2 scenarioWire "match_data_send" "data" = Some (JStr "3q2+7w==")
  /\ list_byte_of_string "3q2+7w==" <> scenarioPayload.
Proof.
  split; [vm_compute; right; left; reflexivity |].
  split; [vm_compute; reflexivity |].
  split; [vm_compute; reflexivity |].
  vm_compute. discriminate.
Qed.

(** The amended C1 at the scenario. *)
Lemma payload_round_trip_witness :
  exists c wire echoed,
    In (EWriteMessage c wire None) (snd (fst scenarioSent)) /\
    member2 wire "match_data_send" "data"
    = Some (JStr (Base64.EncodeToString scenarioPayload)) /\
    listenStep sameText scenarioAdapter (ReadOK (Text wire))
    = (scenarioAdapter, [EOnMessage echoed], Reading) /\
    member2 echoed "match_data_send" "data"
    = Some (JStr (Base64.EncodeToString scenarioPayload)) /\
    Base64.DecodeString (Base64.EncodeToString scenarioPayload) = Some scenarioPayload.
Proof.
  apply (payload_round_trip_as_base64 sameText scenarioAdapter scenarioStore
           1%positive 2%positive "match_data_send" (VBytes scenarioPayload)
           scenarioPayload (snd (fst (fst scenarioSent)))).
  - reflexivity.
  - left; reflexivity.
  - vm_compute; reflexivity.
  - exact scenario_notShared.
  - vm_compute; reflexivity.
  - reflexivity.
  - vm_compute; reflexivity.
Defined.


(** C10 as stated fails: on an adapter without a handle [Send] returns with
    the envelope untouched, op_code still the integer and data still the
    bytes. *)
Lemma closed_adapter_leaves_envelope_untouched :
  exists err,
    Send NewWebSocketAdapter scenarioStore (VMap 1%positive) None
    = (NewWebSocketAdapter, scenarioStore, [], Some err)
    /\ mapLookup scenarioStore 2%positive "op_code" = Some (VInt 7)
    /\ mapLookup scenarioStore 2%positive "data" = Some (VBytes scenarioPayload).
Proof. eexists. repeat split; vm_compute; reflexivity. Qed.

(** The amended C10 at the scenario, with a write that fails. *)
Lemma Send_rewrites_witness :
  exists h' ev err,
    Send scenarioAdapter scenarioStore (VMap 1%positive) (Some (netError "broken pipe"))
    = (scenarioAdapter, h', ev, err) /\
    mapLookup h' 1%positive "match_data_send" = Some (VMap 2%positive) /\
    (forall opCode, mapLookup scenarioStore 2%positive "op_code" = Some opCode ->
       exists text, mapLookup h' 2%positive "op_code" = Some (VString text)
                    /\ opCodeText opCode text) /\
    (forall payload p,
       notShared scenarioStore 1%positive "match_data_send" 2%positive ->
       mapLookup scenarioStore 2%positive "data" = Some payload ->
       payloadBytes payload = Some p ->
       mapLookup h' 2%positive "data" = Some (VString (Base64.EncodeToString p))).
Proof.
  apply (Send_rewrites_the_callers_map scenarioAdapter 5 scenarioStore
           1%positive 2%positive "match_data_send" (Some (netError "broken pipe"))).
  - reflexivity.
  - left; reflexivity.
  - vm_compute; reflexivity.
Defined.

(** C6 on the scenario's adapter once closed. *)
Lemma Send_without_handle_witness :
  Send (fst (Close scenarioAdapter)) scenarioStore (VMap 1%positive) None
  = (fst (Close scenarioAdapter), scenarioStore, [],
     Some (errorString "WebSocket is not connected")).
Proof. apply Send_without_handle. reflexivity. Defined.

(** C2 as stated fails: after a frame that does not parse the loop is still
    reading and the adapter still open; no [Close] has taken place. *)
Lemma parse_error_does_not_close :
  listen sameText scenarioAdapter [Read (ReadOK (Malformed "unexpected end of JSON input"))]
  = (scenarioAdapter, [EOnError (SyntaxError "unexpected end of JSON input")], Reading)
  /\ IsOpen scenarioAdapter = true.
Proof. split; reflexivity. Qed.

(** The amended C2 on an abnormal closure: both callbacks, then [Close], and
    the frame that follows is never read. *)
Lemma listen_error_witness :
  listen sameText scenarioAdapter
    [Read (ReadErr (CloseError 1006 "unexpected EOF")); Read (ReadOK (Text JNull))]
  = (setSocket scenarioAdapter None,
     [EOnError (CloseError 1006 "unexpected EOF"); EOnClose;
      EConnClose 5; EPrintln "WebSocket connection closed."],
     Returned).
Proof.
  exact (listen_on_read_or_parse_error sameText scenarioAdapter
           (ReadErr (CloseError 1006 "unexpected EOF"))
           (CloseError 1006 "unexpected EOF") [Read (ReadOK (Text JNull))] eq_refl).
Defined.

(** C3 as stated fails: on an adapter that holds connection 5, a [Connect]
    whose dial succeeds returns no error and leaves connection 6 in the
    handle. *)
Lemma Connect_while_connected_succeeds :
  socket scenarioAdapter = Some 5
  /\ snd (Connect scenarioAdapter "ws://" "127.0.0.1" "7350" true "token" (inl 6)) = None
  /\ socket (fst (fst (Connect scenarioAdapter "ws://" "127.0.0.1" "7350" true "token" (inl 6))))
     = Some 6.
Proof. repeat split; reflexivity. Qed.

(** The amended C3 on the scenario's adapter, which holds connection 5. *)
Lemma Connect_replaces_witness :
  (forall c, exists ev,
      Connect scenarioAdapter "ws://" "127.0.0.1" "7350" true "token" (inl c)
      = (setSocket scenarioAdapter (Some c), ev, None)
      /\ ~ In (EConnClose 5) ev
      /\ In (EGoListen c) ev)
  /\ (forall err,
        snd (Connect scenarioAdapter "ws://" "127.0.0.1" "7350" true "token" (inr err))
        = Some err).
Proof.
  apply (Connect_replaces_held_handle scenarioAdapter 5). reflexivity.
Defined.

(** C5 at the scenario: a refresh that succeeds, followed by the call with
    the new token; and a refresh that is refused, after which nothing else
    is requested. *)
Lemma refresh_gate_witness :
  (exists σ',
      AddGroupUsers scenarioIsExpired scenarioUpdate scenarioClient
        (scenarioSession "r1") "group" ["user"] scenarioWorld
      = ((true, None), scenarioUpdate (scenarioSession "r1") "t2" "r2", σ')
      /\ requests σ'
         = [CallSessionRefresh "defaultkey" EmptyString {| reqToken := "r1"; reqVars := None |} ∅;
            CallAddGroupUsers "t2" "group" ["user"] ∅])
  /\ (exists σ',
      AddFriends scenarioIsExpired scenarioUpdate scenarioClient
        (scenarioSession "stale") ["user"] [] scenarioWorld
      = ((false, Some (errorString "401 Unauthorized")), scenarioSession "stale", σ')
      /\ requests σ'
         = [CallSessionRefresh "defaultkey" EmptyString {| reqToken := "stale"; reqVars := None |} ∅]).
Proof.
  split.
  - pose proof (refresh_gate_before_call scenarioIsExpired scenarioUpdate
                  scenarioClient (scenarioSession "r1") scenarioWorld
                  eq_refl ltac:(discriminate) eq_refl) as [H _].
    exact (H "group" ["user"]).
  - pose proof (refresh_gate_before_call scenarioIsExpired scenarioUpdate
                  scenarioClient (scenarioSession "stale") scenarioWorld
                  eq_refl ltac:(discriminate) eq_refl) as [_ H].
    exact (H ["user"] []).
Defined.

(* ===================================================================== *)
(** * Further properties                                                  *)
(* ===================================================================== *)

(** ** Send, beyond the claims *)


Lemma sentAdapter_same (w : WebSocketAdapter) (h : heap) (message : value)
    (write : option error) : sentAdapter w h message write = w.
Proof.
  unfold sentAdapter, Send. destruct (socket w); [| reflexivity].
  destruct (marshal _ _ _); [destruct write |]; reflexivity.
Qed.

Lemma sentStore_held (w : WebSocketAdapter) (c : conn) (h : heap) (r : loc)
    (write : option error) :
  socket w = Some c -> sentStore w h (VMap r) write = encoded h r.
Proof.
  intros Hc. unfold sentStore.
  destruct (Send_store w c h r write Hc) as (ev & err & ->). reflexivity.
Qed.

Lemma sentStore_cases (w : WebSocketAdapter) (h : heap) (message : value)
    (write : option error) :
  sentStore w h message write = h
  \/ exists r, message = VMap r /\ sentStore w h message write = encoded h r.
Proof.
  destruct (socket w) as [c |] eqn:Hc.
  - destruct message as [| | | | | | r];
      try (left; unfold sentStore, Send; rewrite Hc;
           destruct (marshal _ _ _); [destruct write |]; reflexivity).
    right. exists r. split; [reflexivity |]. eapply sentStore_held, Hc.
  - left. unfold sentStore, Send. rewrite Hc. reflexivity.
Qed.

Lemma mapStore_keeps (h : heap) (r x : loc) (k k' : string) (v : value) :
  is_Some (mapLookup h x k') -> is_Some (mapLookup (mapStore h r k v) x k').
Proof.
  intros Hk.
  destruct (decide (x = r)) as [-> | Hx];
    [destruct (decide (k' = k)) as [-> | Hk'] |].
  - rewrite mapLookup_mapStore_eq; [eauto |].
    destruct Hk as [v0 Hv0]. eapply mapLookup_is_Some, Hv0.
  - rewrite mapLookup_mapStore_ne by (right; exact Hk'). exact Hk.
  - rewrite mapLookup_mapStore_ne by (left; exact Hx). exact Hk.
Qed.

Lemma afterOpCode_keeps (h : heap) (l x : loc) (k : string) :
  is_Some (mapLookup h x k) -> is_Some (mapLookup (afterOpCode h l) x k).
Proof.
  intros Hk. unfold afterOpCode.
  destruct (mapLookup h l "op_code"); [apply mapStore_keeps |]; exact Hk.
Qed.

Lemma handleEncodedData_keeps (h : heap) (msg : loc) (field : string)
    (x : loc) (k : string) :
  is_Some (mapLookup h x k) ->
  is_Some (mapLookup (handleEncodedData h msg field) x k).
Proof.
  intros Hk.
  destruct (mapLookup h msg field) as [[| | | | | | l] |] eqn:Hf;
    try (unfold handleEncodedData; rewrite Hf; exact Hk).
  rewrite (handleEncodedData_unfold _ _ _ _ Hf).
  destruct (mapLookup (afterOpCode h l) l "data") as [[| | | | | |] |];
    try apply mapStore_keeps; apply afterOpCode_keeps, Hk.
Qed.

Lemma encoded_keys (h : heap) (r x : loc) (k : string) :
  is_Some (mapLookup (encoded h r) x k) <-> is_Some (mapLookup h x k).
Proof.
  split.
  - intros [v' Hv']. destruct (rewritten_encoded h r x k v' Hv') as [H | [_ H]];
      [eauto | exact H].
  - intros H. unfold encoded. do 2 apply handleEncodedData_keeps. exact H.
Qed.

(** X2.  [Send] keeps the shape of the caller's store: it adds and removes
    no map and no key, it leaves every member other than [op_code] and
    [data] as it was, and a member it does change becomes a string. *)
Theorem Send_keeps_the_shape_of_the_store (w : WebSocketAdapter) (h : heap)
    (message : value) (write : option error) :
  (forall x, is_Some (sentStore w h message write !! x) <-> is_Some (h !! x))
  /\ (forall x k, is_Some (mapLookup (sentStore w h message write) x k)
                  <-> is_Some (mapLookup h x k))
  /\ (forall x k, k <> "op_code" -> k <> "data" ->
        mapLookup (sentStore w h message write) x k = mapLookup h x k)
  /\ (forall x k v', mapLookup (sentStore w h message write) x k = Some v' ->
        mapLookup h x k = Some v' \/ exists t, v' = VString t).
Proof.
  destruct (sentStore_cases w h message write) as [-> | (r & -> & ->)].
  - repeat split; tauto.
  - split; [intros x; apply encoded_is_Some |].
    split; [intros x k; apply encoded_keys |].
    split.
    + intros x k Hop Hdata. unfold encoded.
      rewrite !handleEncodedData_frame_key by assumption. reflexivity.
    + intros x k v' H.
      destruct (rewritten_encoded h r x k v' H) as [H0 | [Ht _]]; [left | right]; assumption.
Qed.

(** X3.  An envelope of another kind is not touched: when neither data-send
    key of the message holds a map, the store after [Send] is the store
    before. *)
Theorem Send_leaves_other_kinds_untouched (w : WebSocketAdapter) (h : heap)
    (r : loc) (write : option error) :
  (forall l, mapLookup h r "match_data_send" <> Some (VMap l)) ->
  (forall l, mapLookup h r "party_data_send" <> Some (VMap l)) ->
  sentStore w h (VMap r) write = h.
Proof.
  intros Hm Hp.
  assert (forall field, (forall l, mapLookup h r field <> Some (VMap l)) ->
                        handleEncodedData h r field = h) as Hskip.
  { intros field Hf. unfold handleEncodedData.
    destruct (mapLookup h r field) as [[| | | | | | l] |]; try reflexivity.
    exfalso. exact (Hf l eq_refl). }
  destruct (sentStore_cases w h (VMap r) write) as [-> | (r' & [= <-] & ->)];
    [reflexivity |].
  unfold encoded. rewrite (Hskip _ Hm). exact (Hskip _ Hp).
Qed.

(** X4.  [Send] is not idempotent on the envelope.  A second [Send] of the
    same map, such as a retry after a failed write, encodes the payload
    again: the data member then holds the base64 text of the base64 text of
    [p], which decodes to that text and not to [p].  The op_code string is
    the same after both. *)
Theorem Send_again_encodes_the_payload_twice (w : WebSocketAdapter) (c : conn)
    (h : heap) (r l : loc) (field : string) (payload : value) (p : list byte)
    (write1 write2 : option error) :
  socket w = Some c ->
  dataSendKind field ->
  mapLookup h r field = Some (VMap l) ->
  notShared h r field l ->
  mapLookup h l "data" = Some payload ->
  payloadBytes payload = Some p ->
  let once := Base64.EncodeToString p in
  let twice := Base64.EncodeToString (list_byte_of_string once) in
  let h1 := sentStore w h (VMap r) write1 in
  let h2 := sentStore w h1 (VMap r) write2 in
  mapLookup h1 l "data" = Some (VString once)
  /\ mapLookup h2 l "data" = Some (VString twice)
  /\ Base64.DecodeString twice = Some (list_byte_of_string once)
  /\ (forall opCode, mapLookup h l "op_code" = Some opCode ->
      exists text, mapLookup h1 l "op_code" = Some (VString text)
                   /\ mapLookup h2 l "op_code" = Some (VString text)).
Proof.
  intros Hc Hk Hf Hns Hdata Hp once twice h1 h2.
  unfold h2, h1. rewrite !(sentStore_held _ c) by exact Hc.
  assert (mapLookup (encoded h r) r field = Some (VMap l)) as Hf1.
  { rewrite encoded_envelope by exact Hk. exact Hf. }
  assert (notShared (encoded h r) r field l) as Hns1.
  { intros other Ho Hne. rewrite encoded_envelope by exact Ho. exact (Hns other Ho Hne). }
  assert (mapLookup (encoded h r) l "data" = Some (VString once)) as H1.
  { eapply encoded_data; eassumption. }
  split; [exact H1 |].
  split; [eapply encoded_data; [exact Hk | exact Hf1 | exact Hns1 | exact H1 | reflexivity] |].
  split; [apply Base64Facts.DecodeString_EncodeToString |].
  intros opCode Hop.
  destruct (encoded_op_code _ _ _ _ _ Hk Hf Hop) as (text & Ht & _).
  exists text. split; [exact Ht |].
  destruct (encoded_op_code _ _ _ _ _ Hk Hf1 Ht) as (text' & Ht' & _ & Hs).
  rewrite Ht'. rewrite (Hs text eq_refl). reflexivity.
Qed.

(** ** decodeReceivedData and the receive loop, beyond the claims *)

(** X5.  [decodeReceivedData] can be repeated without harm and touches one
    member only: decoding a second time changes nothing, every other key of
    the message is as it was, and in the map under the key every member
    other than [data] is as it was. *)
Theorem decodeReceivedData_once_is_enough (msg : datum) (field : string) :
  decodeReceivedData (decodeReceivedData msg field) field
  = decodeReceivedData msg field
  /\ (forall k, k <> field ->
        dmember (decodeReceivedData msg field) k = dmember msg k)
  /\ (forall dataMap', dmember (decodeReceivedData msg field) field
                       = Some (DMap dataMap') ->
      exists dataMap, dmember msg field = Some (DMap dataMap)
                      /\ forall k, k <> "data" -> dataMap' !! k = dataMap !! k).
Proof.
  split; [| split].
  - unfold decodeReceivedData at 2 3.
    destruct msg as [| | | | | | m]; try reflexivity.
    destruct (m !! field) as [[| | | | | | dataMap] |] eqn:Hf;
      try (unfold decodeReceivedData; rewrite Hf; reflexivity).
    destruct (dataMap !! "data") as [[| | | encodedStr | | |] |] eqn:Hd;
      try (unfold decodeReceivedData; rewrite Hf, Hd; reflexivity).
    destruct (Base64.DecodeString encodedStr) as [decodedBytes |] eqn:Hdec;
      [| unfold decodeReceivedData; rewrite Hf, Hd, Hdec; reflexivity].
    unfold decodeReceivedData.
    rewrite lookup_insert_eq, lookup_insert_eq. reflexivity.
  - intros k Hk. apply decodeReceivedData_other, Hk.
  - intros dataMap' H. unfold decodeReceivedData in H.
    destruct msg as [| | | | | | m]; try discriminate. cbn [dmember] in *.
    destruct (m !! field) as [[| | | | | | dataMap] |] eqn:Hf;
      try (cbn in H; rewrite Hf in H; discriminate).
    exists dataMap. split; [reflexivity |]. intros k Hk.
    destruct (dataMap !! "data") as [[| | | encodedStr | | |] |] eqn:Hd;
      try (cbn in H; rewrite Hf in H; injection H as <-; reflexivity).
    destruct (Base64.DecodeString encodedStr) as [decodedBytes |];
      [| cbn in H; rewrite Hf in H; injection H as <-; reflexivity].
    cbn in H. rewrite lookup_insert_eq in H. injection H as <-.
    apply lookup_insert_ne. congruence.
Qed.

Section FurtherLoop.

Variable float64Text : string -> string.



Lemma marshalDatum_unmarshal (j : json) :
  NumbersKept float64Text j -> marshalDatum float64Text (unmarshal j) = j.
Proof.
  revert j. fix IH 2. intros j H. destruct H as [| b | lit Hlit | s | l Hl | m Hm]; cbn.
  - reflexivity.
  - reflexivity.
  - rewrite Hlit. reflexivity.
  - reflexivity.
  - f_equal. rewrite List.map_map.
    assert (forall x, In x l ->
                      marshalDatum float64Text (unmarshal x) = x) as Hx.
    { intros x Hin. exact (IH x (Hl x Hin)). }
    clear Hl. induction l as [| a l IHl]; [reflexivity |].
    cbn. rewrite (Hx a (or_introl eq_refl)). f_equal.
    apply IHl. intros x Hin. apply Hx. right. exact Hin.
  - f_equal. apply map_eq. intros k. rewrite !lookup_fmap.
    destruct (m !! k) as [x |] eqn:Hk; [| reflexivity].
    cbn. f_equal. exact (IH x (Hm k x Hk)).
Qed.

(** X7.  Every other message passes through the loop unchanged: a frame
    holding an object with neither a match_data nor a party_data key, and
    whose number literals are printed by the encoder as they stand, reaches
    the message-callback as the very document that was read. *)
Theorem other_frames_are_delivered_unchanged (w : WebSocketAdapter)
    (m : gmap string json) :
  onMessage w = true ->
  m !! "match_data" = None ->
  m !! "party_data" = None ->
  NumbersKept float64Text (JObj m) ->
  listenStep float64Text w (ReadOK (Text (JObj m)))
  = (w, [EOnMessage (JObj m)], Reading).
Proof.
  intros Hcb Hmd Hpd Hnum.
  rewrite (listenStep_object float64Text w m Hcb).
  replace (delivered float64Text m) with (JObj m); [reflexivity |].
  symmetry. unfold delivered.
  assert (forall field, m !! field = None ->
                        decodeReceivedData (DMap (unmarshal <$> m)) field
                        = DMap (unmarshal <$> m)) as Hskip.
  { intros field Hf. unfold decodeReceivedData.
    rewrite lookup_fmap, Hf. reflexivity. }
  rewrite (Hskip _ Hmd), (Hskip _ Hpd).
  exact (marshalDatum_unmarshal (JObj m) Hnum).
Qed.





Lemma count_app (P : event -> bool) (a b : list event) :
  length (List.filter P (a ++ b))
  = length (List.filter P a) + length (List.filter P b).
Proof. rewrite List.filter_app, List.length_app. reflexivity. Qed.

Lemma listen_closed_is_quiet (script : list occurrence) (w : WebSocketAdapter) :
  socket w = None ->
  length (List.filter isConnClose (loopEvents (listen float64Text w script))) = 0
  /\ length (List.filter isOnClose (loopEvents (listen float64Text w script))) = 0.
Proof.
  revert w. induction script as [| [[message | err] |] rest IH]; intros w Hw.
  - split; reflexivity.
  - destruct (IH w Hw) as [IH1 IH2]. cbn [listen]. unfold listenStep.
    destruct (Unmarshal message) as [e | d];
      destruct (listen float64Text w rest) as [[w2 ev2] st2];
      unfold loopEvents in *; cbn [fst snd] in *;
      rewrite !count_app, IH1, IH2;
      destruct (onMessage w), (onError w); split; reflexivity.
  - cbn [listen]. unfold listenStep. rewrite Hw. split; reflexivity.
  - cbn [listen]. rewrite (Close_closed w Hw).
    destruct (IH w Hw) as [IH1 IH2].
    destruct (listen float64Text w rest) as [[w2 ev2] st2].
    unfold loopEvents in *; cbn [fst snd] in *. split; assumption.
Qed.

(** X9.  In one run of the loop the connection is closed at most once and
    the close-callback is called at most once, however many reads fail and
    however often another goroutine closes the adapter; when the adapter is
    already closed, neither happens at all. *)
Theorem listen_closes_at_most_once (script : list occurrence) (w : WebSocketAdapter) :
  length (List.filter isConnClose (loopEvents (listen float64Text w script))) <= 1
  /\ length (List.filter isOnClose (loopEvents (listen float64Text w script))) <= 1
  /\ (IsOpen w = false ->
      List.filter isConnClose (loopEvents (listen float64Text w script)) = []
      /\ List.filter isOnClose (loopEvents (listen float64Text w script)) = []).
Proof.
  assert (forall l : list event, length l = 0 -> l = []) as Hnil.
  { intros [| ? ?]; [reflexivity | discriminate]. }
  split; [| split].
  3:{ intros Hopen. assert (socket w = None) as Hw.
      { unfold IsOpen in Hopen. destruct (socket w); [discriminate | reflexivity]. }
      destruct (listen_closed_is_quiet script w Hw) as [H1 H2].
      split; apply Hnil; assumption. }
  all: revert w; induction script as [| [[message | err] |] rest IH]; intros w;
    [ cbn; lia
    | cbn [listen]; unfold listenStep;
      destruct (Unmarshal message) as [e | d];
      specialize (IH w);
      destruct (listen float64Text w rest) as [[w2 ev2] st2];
      unfold loopEvents in *; cbn [fst snd] in *;
      rewrite count_app; destruct (onMessage w), (onError w); cbn; lia
    | cbn [listen]; unfold listenStep, Close;
      destruct (socket w) as [c |]; unfold loopEvents; cbn [fst snd];
      [ rewrite !count_app;
        destruct (onError w), (IsUnexpectedCloseError err [] && onClose w); cbn; lia
      | cbn; lia ]
    | cbn [listen];
      pose proof (listen_closed_is_quiet rest (fst (Close w)) (Close_socket w)) as [H1 H2];
      unfold Close in *; destruct (socket w) as [c |] eqn:Hc; rewrite ?Hc in *;
      cbn [fst snd] in *;
      [ destruct (listen float64Text (setSocket w None) rest) as [[w2 ev2] st2];
        unfold loopEvents in *; cbn [fst snd] in *;
        rewrite count_app; cbn; lia
      | destruct (listen float64Text w rest) as [[w2 ev2] st2];
        unfold loopEvents in *; cbn [fst snd app] in *; lia ] ].
Qed.

(** X10.  The loop ends exactly at a read that fails: it has returned if and
    only if some read of the script returned an error, it then holds no
    handle, and no frame that fails to parse ever ends it. *)
Theorem listen_returns_exactly_on_read_error (script : list occurrence)
    (w : WebSocketAdapter) :
  (loopEnd (listen float64Text w script) = Returned
   <-> existsb isReadError script = true)
  /\ (loopEnd (listen float64Text w script) = Returned ->
      IsOpen (loopAdapter (listen float64Text w script)) = false).
Proof.
  split.
  - revert w. induction script as [| [[message | err] |] rest IH]; intros w.
    + cbn. split; discriminate.
    + specialize (IH w). cbn [listen existsb isReadError orb]. unfold listenStep.
      destruct (Unmarshal message);
        destruct (listen float64Text w rest) as [[w2 ev2] st2];
        unfold loopEnd in *; cbn [snd] in *; exact IH.
    + cbn [listen existsb isReadError orb]. unfold listenStep, Close.
      destruct (socket w); unfold loopEnd; cbn; split; reflexivity.
    + specialize (IH (fst (Close w))). cbn [listen existsb isReadError orb].
      destruct (Close w) as [w1 ev1]. cbn [fst] in IH.
      destruct (listen float64Text w1 rest) as [[w2 ev2] st2].
      unfold loopEnd in *; cbn [snd] in *; exact IH.
  - intros H. destruct (listen float64Text w script) as [[w' ev] st] eqn:Hl.
    unfold loopEnd in H. cbn in H. subst st.
    unfold loopAdapter, IsOpen. cbn.
    rewrite (listen_returned_closed float64Text script w w' ev Hl). reflexivity.
Qed.

End FurtherLoop.

(** ** Connect, beyond the claims *)

Lemma QueryEscape_chars (s : string) : allChars queryChar (QueryEscape s) = true.
Proof.
  induction s as [| c s IH]; [reflexivity |].
  destruct c as [[] [] [] [] [] [] [] []]; cbn; exact IH.
Qed.

Lemma QueryEscape_unreserved (s : string) :
  allChars unreserved s = true -> QueryEscape s = s.
Proof.
  induction s as [| c s IH]; [reflexivity |].
  cbn [allChars QueryEscape]. intros H. apply andb_prop in H as [Hc Hs].
  rewrite Hc, (IH Hs). reflexivity.
Qed.

(** X11.  The URL [Connect] dials is well formed whatever the token holds:
    it is the scheme, host and port followed by the fixed path and query,
    with status spelled true or false and the token escaped so that only
    letters, digits and the characters - _ . ~ + % occur in it; a token made
    of letters, digits and - _ . ~ only, as a JWT is, appears unchanged.
    The URL is dialed once, before anything else. *)
Theorem Connect_dials_a_well_formed_url (w : WebSocketAdapter)
    (scheme host port : string) (createStatus : bool) (token : string)
    (dial : conn + error) :
  exists escapedToken rest,
    connectEvents (Connect w scheme host port createStatus token dial)
    = EDial (connectUrl scheme host port createStatus escapedToken) :: rest
    /\ Forall (fun e => forall u, e <> EDial u) rest
    /\ allChars queryChar escapedToken = true
    /\ (allChars unreserved token = true -> escapedToken = token).
Proof.
  exists (QueryEscape token).
  assert (QueryEscape (formatBool createStatus) = formatBool createStatus) as Hb.
  { destruct createStatus; reflexivity. }
  destruct dial as [c | err]; unfold Connect, connectEvents, connectUrl; cbn [fst snd];
    rewrite Hb.
  - exists ((if onOpen w then [EOnOpen] else []) ++ [EGoListen c]).
    split; [reflexivity |]. split; [| split].
    + destruct (onOpen w); repeat constructor; intros u H; discriminate H.
    + apply QueryEscape_chars.
    + apply QueryEscape_unreserved.
  - exists []. split; [reflexivity |]. split; [constructor | split].
    + apply QueryEscape_chars.
    + apply QueryEscape_unreserved.
Qed.

(** X12.  A [Connect] whose dial fails leaves the adapter without a handle,
    also when it held one: the connection held before is not closed, no
    callback is called and no loop is started; afterwards [IsOpen] is
    false, [Close] does nothing, and [Send] reports that the socket is not
    connected. *)
Theorem failed_Connect_drops_the_handle (w : WebSocketAdapter)
    (scheme host port : string) (createStatus : bool) (token : string)
    (err : error) :
  let r := Connect w scheme host port createStatus token (inr err) in
  snd r = Some err
  /\ IsOpen (connectedAdapter r) = false
  /\ (exists u, connectEvents r = [EDial u])
  /\ Close (connectedAdapter r) = (connectedAdapter r, [])
  /\ (forall h message write,
        Send (connectedAdapter r) h message write
        = (connectedAdapter r, h, [],
           Some (errorString "WebSocket is not connected"))).
Proof.
  cbn. repeat split; eauto.
Qed.

Section Callbacks.

Variable float64Text : string -> string.

Lemma sameCallbacks_refl (w : WebSocketAdapter) : sameCallbacks w w.
Proof. repeat split. Qed.

Lemma sameCallbacks_trans (w1 w2 w3 : WebSocketAdapter) :
  sameCallbacks w1 w2 -> sameCallbacks w2 w3 -> sameCallbacks w1 w3.
Proof.
  unfold sameCallbacks. intros (? & ? & ? & ?) (? & ? & ? & ?).
  repeat split; congruence.
Qed.

Lemma sameCallbacks_Close (w : WebSocketAdapter) : sameCallbacks w (fst (Close w)).
Proof. unfold Close. destruct (socket w); repeat split. Qed.

Lemma sameCallbacks_listen (script : list occurrence) (w : WebSocketAdapter) :
  sameCallbacks w (loopAdapter (listen float64Text w script)).
Proof.
  revert w. induction script as [| [[message | err] |] rest IH]; intros w.
  - apply sameCallbacks_refl.
  - specialize (IH w). cbn [listen]. unfold listenStep.
    destruct (Unmarshal message);
      destruct (listen float64Text w rest) as [[w2 ev2] st2]; exact IH.
  - cbn [listen]. unfold listenStep.
    destruct (socket w) eqn:Hc; [| apply sameCallbacks_refl].
    pose proof (sameCallbacks_Close w) as H. destruct (Close w). exact H.
  - cbn [listen]. pose proof (sameCallbacks_Close w) as H.
    destruct (Close w) as [w1 ev1]. specialize (IH w1).
    destruct (listen float64Text w1 rest) as [[w2 ev2] st2].
    exact (sameCallbacks_trans _ _ _ H IH).
Qed.

(** X13.  The callbacks persist: no operation of the adapter sets or clears
    one, so what was registered before [Connect] is still registered after
    any [Connect], [Send], [Close] or run of the receive loop, and so across
    a reconnect. *)
Theorem callbacks_persist (w : WebSocketAdapter) :
  (forall scheme host port createStatus token dial,
      sameCallbacks w
        (connectedAdapter (Connect w scheme host port createStatus token dial)))
  /\ (forall h message write, sameCallbacks w (sentAdapter w h message write))
  /\ sameCallbacks w (fst (Close w))
  /\ (forall script, sameCallbacks w (loopAdapter (listen float64Text w script)))
  /\ (forall scheme host port createStatus token dial script,
        sameCallbacks w
          (connectedAdapter
             (Connect
                (loopAdapter
                   (listen float64Text
                      (connectedAdapter
                         (Connect w scheme host port createStatus token dial))
                      script))
                scheme host port createStatus token dial))).
Proof.
  assert (forall w0 scheme host port createStatus token dial,
      sameCallbacks w0
        (connectedAdapter (Connect w0 scheme host port createStatus token dial)))
    as Hconnect.
  { intros. destruct dial; repeat split. }
  split; [apply Hconnect |].
  split.
  { intros. rewrite sentAdapter_same. apply sameCallbacks_refl. }
  split; [apply sameCallbacks_Close |].
  split; [intros; apply sameCallbacks_listen |].
  intros.
  eapply sameCallbacks_trans; [apply Hconnect |].
  eapply sameCallbacks_trans; [apply sameCallbacks_listen |]. apply Hconnect.
Qed.

End Callbacks.

(** ** client.go, beyond the claims *)

(** X14.  [NewClient] never leaves a field empty and keeps the client and
    its API in step: server key, host and port are not empty and the timeout
    is not zero whatever was passed; the API carries the client's server key
    and timeout and the base path made of the scheme for the SSL flag, the
    host and the port; the lookahead is five minutes.  Building a client
    from the fields of a client changes nothing. *)
Theorem NewClient_fills_and_agrees (remote : NakamaApi) (serverKey host port : string)
    (useSSL : bool) (timeout : Z) (autoRefreshSession : bool) :
  let c := fst (NewClient remote serverKey host port useSSL timeout autoRefreshSession) in
  let api := snd (NewClient remote serverKey host port useSSL timeout autoRefreshSession) in
  ServerKey c <> EmptyString /\ Host c <> EmptyString /\ Port c <> EmptyString
  /\ Timeout c <> 0%Z
  /\ ExpiredTimespanMs c = 300000%Z
  /\ UseSSL c = useSSL /\ AutoRefreshSession c = autoRefreshSession
  /\ apiServerKey api = ServerKey c /\ TimeoutMs api = Timeout c
  /\ BasePath api
     = (if UseSSL c then "https://" else "http://") +:+ Host c +:+ ":" +:+ Port c
  /\ NewClient remote (ServerKey c) (Host c) (Port c) (UseSSL c) (Timeout c)
       (AutoRefreshSession c)
     = (c, api).
Proof.
  cbn zeta. unfold NewClient. cbn [fst snd ServerKey Host Port Timeout UseSSL
    AutoRefreshSession ExpiredTimespanMs apiServerKey TimeoutMs BasePath].
  destruct (String.eqb_spec serverKey EmptyString) as [-> | Hk];
  destruct (String.eqb_spec host EmptyString) as [-> | Hh];
  destruct (String.eqb_spec port EmptyString) as [-> | Hp];
  destruct (Z.eqb_spec timeout 0) as [-> | Ht];
  repeat match goal with
         | |- _ /\ _ => split
         end;
  try reflexivity; try discriminate; try assumption;
  cbn;
  repeat match goal with
         | H : ?s <> EmptyString |- context [String.eqb ?s EmptyString] =>
             rewrite (proj2 (String.eqb_neq s EmptyString) H)
         | H : ?t <> 0%Z |- context [(?t =? 0)%Z] =>
             rewrite (proj2 (Z.eqb_neq t 0) H)
         end;
  reflexivity.
Qed.

Lemma wrap64_fits (z : Z) : fits64 z -> wrap64 z = z.
Proof.
  unfold fits64, wrap64. intros H.
  rewrite Z.mod_small by lia. lia.
Qed.

Section FurtherClient.

Variable IsExpired : Session -> Z -> bool.
Variable Update : Session -> string -> string -> Session.

Lemma advised_logged (s : Session) (σ : world) :
  lifetimesFit s -> logged (advised s σ) = logged σ ++ warnings s.
Proof.
  intros [H1 H2]. unfold advised, warnings.
  destruct (ExpiresAt s) as [e |] eqn:He;
    [rewrite (wrap64_fits _ (H1 e eq_refl)) |];
    (destruct (RefreshExpiresAt s) as [e' |] eqn:He';
     [rewrite (wrap64_fits _ (H2 e' eq_refl)) |]);
    repeat match goal with
           | |- context [if ?b then _ else _] => destruct b
           end;
    cbn; rewrite ?app_nil_r, <- ?app_assoc; reflexivity.
Qed.

(** X15.  [RefreshSession] makes one request at most, and only for a session
    that is not nil: a nil session gives the error at once with no request
    and no log line; any other session gives exactly one request, carrying
    the server key as user name, an empty password, the session's refresh
    token and the variables passed, whether the request then succeeds or
    not.  The clock is never changed. *)
Theorem RefreshSession_requests_once (c : Client) (session : option Session)
    (vars : option (gmap string string)) (σ : world) :
  let r := RefreshSession Update c session vars σ in
  requests (snd r)
  = requests σ ++
    match session with
    | None => []
    | Some s =>
        [CallSessionRefresh (ServerKey c) EmptyString
           {| reqToken := RefreshToken s; reqVars := vars |} ∅]
    end
  /\ now (snd r) = now σ
  /\ (session = None ->
      r = ((None, Some (errorString "cannot refresh a null session")), None, σ)).
Proof.
  destruct session as [s |]; cbn zeta.
  - rewrite RefreshSession_eq.
    assert (now (advised s σ) = now σ) as Hnow.
    { unfold advised.
      destruct (ExpiresAt s), (RefreshExpiresAt s);
        repeat match goal with
               | |- context [if ?b then _ else _] => destruct b
               end; reflexivity. }
    destruct (refreshAnswer c s vars σ); cbn; rewrite advised_requests, Hnow;
      repeat split; discriminate.
  - cbn. rewrite app_nil_r. repeat split.
Qed.

(** X16.  The lifetime warnings depend on the session alone.  For a session
    whose two lifetimes int64 can hold, [RefreshSession] logs the access
    warning exactly when the access lifetime is known and below 70 seconds,
    then the refresh warning exactly when the refresh lifetime is known and
    below 3700 seconds, and nothing else, whatever the outcome of the
    request. *)
Theorem RefreshSession_logs_the_warnings (c : Client) (s : Session)
    (vars : option (gmap string string)) (σ : world) :
  lifetimesFit s ->
  logged (snd (RefreshSession Update c (Some s) vars σ)) = logged σ ++ warnings s.
Proof.
  intros Hfit. rewrite RefreshSession_eq.
  destruct (refreshAnswer c s vars σ); cbn; apply advised_logged, Hfit.
Qed.

(** X17.  A session fresh from an authentication carries the tokens of the
    answer and no expiry time.  Each of the three functions makes one call,
    with the server key as user name, an empty password and the identifier
    or token and variables given; an error is handed back with a nil
    session; and refreshing the session returned logs no warning, its
    lifetimes being unknown, and asks with the refresh token of the
    answer. *)
Theorem authenticated_session_has_no_expiry
    (answer : authCall -> error + ApiSession) (c : Client) (body : account)
    (create : option bool) (username : option string) :
  let call := {| authUsername := ServerKey c; authPassword := EmptyString;
                 authBody := body; authCreate := create; authName := username;
                 authOptions := ∅ |} in
  let r := authenticateWith answer c body create username in
  fst r = call
  /\ match answer call with
     | inl err => snd r = (None, Some err)
     | inr a =>
         exists s,
           snd r = (Some s, None)
           /\ Token s = apiToken a /\ RefreshToken s = apiRefreshToken a
           /\ Created s = apiCreated a
           /\ ExpiresAt s = None /\ RefreshExpiresAt s = None
           /\ forall vars σ,
               logged (snd (RefreshSession Update c (Some s) vars σ)) = logged σ
               /\ requests (snd (RefreshSession Update c (Some s) vars σ))
                  = requests σ ++
                    [CallSessionRefresh (ServerKey c) EmptyString
                       {| reqToken := apiRefreshToken a; reqVars := vars |} ∅]
     end.
Proof.
  cbn zeta.
  assert (authenticateWith answer c body create username
          = authenticate answer c body create username) as ->.
  { destruct body; reflexivity. }
  unfold authenticate.
  destruct (answer _) as [err | a] eqn:Ha; cbn [fst snd].
  - split; reflexivity.
  - split; [reflexivity |]. exists (sessionOf a).
    repeat split; try reflexivity.
    + rewrite RefreshSession_eq.
      destruct (refreshAnswer c (sessionOf a) vars σ); reflexivity.
    + rewrite RefreshSession_eq.
      destruct (refreshAnswer c (sessionOf a) vars σ); reflexivity.
Qed.

Lemma refreshDue_false (c : Client) (s : Session) (σ : world) :
  gateClosed IsExpired c s σ -> refreshDue IsExpired c s σ = false.
Proof.
  unfold gateClosed, refreshDue. intros [-> | [-> | ->]].
  - reflexivity.
  - cbn. rewrite andb_false_r. reflexivity.
  - apply andb_false_r.
Qed.

(** X18.  The gate stays out of the way when it does not apply.  With
    auto-refresh off, or no refresh token, or an access token not yet
    expired at now plus the lookahead, [AddGroupUsers] and [AddFriends]
    make their own request and no other, with the session's present token,
    and leave the session and the log as they were. *)
Theorem gate_closed_means_no_refresh (c : Client) (s : Session) (σ : world) :
  gateClosed IsExpired c s σ ->
  (forall groupId ids,
      AddGroupUsers IsExpired Update c s groupId ids σ
      = (underlyingAnswer
           (ApiAddGroupUsers (ApiClient c) (requests σ) (Token s) groupId ids ∅),
         s,
         request σ (CallAddGroupUsers (Token s) groupId ids ∅)))
  /\ (forall ids usernames,
      AddFriends IsExpired Update c s ids usernames σ
      = (underlyingAnswer
           (ApiAddFriends (ApiClient c) (requests σ) (Token s) ids usernames ∅),
         s,
         request σ (CallAddFriends (Token s) ids usernames ∅))).
Proof.
  intros Hg. pose proof (refreshDue_false c s σ Hg) as Hdue.
  split; intros.
  - unfold AddGroupUsers, refreshIfDue. rewrite Hdue.
    destruct (ApiAddGroupUsers _ _ _ _ _ _); reflexivity.
  - unfold AddFriends, refreshIfDue. rewrite Hdue.
    destruct (ApiAddFriends _ _ _ _ _ _); reflexivity.
Qed.

(** X19.  With the lookahead [NewClient] sets, the expiry is tested five
    minutes ahead: for a clock that is not negative and leaves room for the
    lookahead in int64, the gate asks whether the session has expired at
    the clock's whole seconds plus 300. *)
Theorem gate_looks_five_minutes_ahead (c : Client) (s : Session) (σ : world) :
  ExpiredTimespanMs c = DefaultExpiredTimespanMs ->
  (0 <= now σ < 2 ^ 63 - 300000)%Z ->
  refreshDue IsExpired c s σ
  = (AutoRefreshSession c
     && negb (String.eqb (RefreshToken s) EmptyString)
     && IsExpired s (now σ / 1000 + 300))%bool%Z.
Proof.
  intros Hspan Hnow. unfold refreshDue. rewrite Hspan.
  unfold DefaultExpiredTimespanMs.
  rewrite wrap64_fits by (unfold fits64; lia).
  rewrite Z.quot_div_nonneg by lia.
  replace (now σ + 5 * 60 * 1000)%Z with (now σ + 300 * 1000)%Z by lia.
  rewrite Z.div_add by lia. reflexivity.
Qed.

(** X20.  [AddGroupUsers] and [AddFriends] never report success together
    with an error: the flag returned is true only when no error is returned,
    and then the last request made is the operation's own. *)
Theorem gated_call_true_means_no_error (c : Client) (s : Session) (σ : world) :
  (forall groupId ids,
      let r := AddGroupUsers IsExpired Update c s groupId ids σ in
      (fst (fst (fst r)) = true -> snd (fst (fst r)) = None)
      /\ (fst (fst (fst r)) = true ->
          exists before token,
            requests (snd r) = before ++ [CallAddGroupUsers token groupId ids ∅]))
  /\ (forall ids usernames,
      let r := AddFriends IsExpired Update c s ids usernames σ in
      (fst (fst (fst r)) = true -> snd (fst (fst r)) = None)
      /\ (fst (fst (fst r)) = true ->
          exists before token,
            requests (snd r) = before ++ [CallAddFriends token ids usernames ∅])).
Proof.
  split; intros a b; cbn zeta.
  - unfold AddGroupUsers.
    destruct (refreshIfDue IsExpired Update c s σ) as [[[err |] s1] σ1];
      [cbn; split; intros H; discriminate H |].
    destruct (ApiAddGroupUsers _ _ _ _ _ _); cbn;
      [split; intros H; discriminate H |].
    split; [reflexivity | intros _; eauto].
  - unfold AddFriends.
    destruct (refreshIfDue IsExpired Update c s σ) as [[[err |] s1] σ1];
      [cbn; split; intros H; discriminate H |].
    destruct (ApiAddFriends _ _ _ _ _ _); cbn;
      [split; intros H; discriminate H |].
    split; [reflexivity | intros _; eauto].
Qed.

End FurtherClient.

(** ** The REST surface *)

Section RestSurfaceProperties.

Variable buildFullUrl : string -> string -> gmap string (list string) -> string.


End RestSurfaceProperties.

(** ** The further properties at their scenarios *)

Lemma notificationFrame_kept : NumbersKept sameText (JObj notificationFrame).
Proof.
  apply NK_obj. intros k x H. unfold notificationFrame in H.
  apply lookup_singleton_Some in H as [_ <-].
  apply NK_obj. intros k1 x1 H1.
  apply lookup_singleton_Some in H1 as [_ <-].
  apply NK_arr. intros x2 [<- | []].
  apply NK_obj. intros k3 x3 H3.
  apply lookup_insert_Some in H3 as [[_ <-] | [_ H3]]; [apply NK_num; reflexivity |].
  apply lookup_insert_Some in H3 as [[_ <-] | [_ H3]]; [apply NK_bool |].
  apply lookup_singleton_Some in H3 as [_ <-]. apply NK_str.
Defined.

Lemma scenario_flatEnvelope : flatEnvelope scenarioStore 1%positive.
Proof.
  exists {[ "match_data_send" := VMap 2%positive ]}. split; [reflexivity |].
  apply map_Forall_singleton. right. exists 2%positive.
  split; [reflexivity |]. split; [discriminate |].
  intros m Hm.
  assert (Some m = Some {[ "op_code" := VInt 7; "data" := VBytes scenarioPayload ]})
    as Hc by (rewrite <- Hm; vm_compute; reflexivity).
  injection Hc as ->.
  apply map_Forall_insert_2; [exact I |]. apply map_Forall_singleton. exact I.
Defined.

(** X3 at the scenario: a chat envelope is sent as the caller made it. *)
Lemma Send_other_kinds_witness :
  sentStore scenarioAdapter chatStore (VMap 1%positive) None = chatStore.
Proof.
  apply (Send_leaves_other_kinds_untouched scenarioAdapter chatStore 1%positive None).
  - intros l H. vm_compute in H. discriminate H.
  - intros l H. vm_compute in H. discriminate H.
Defined.

(** X4 at the scenario: the four bytes are base64 after one [Send] and the
    base64 of that text after a second. *)
Lemma Send_again_witness :
  let once := Base64.EncodeToString scenarioPayload in
  let twice := Base64.EncodeToString (list_byte_of_string once) in
  let h1 := sentStore scenarioAdapter scenarioStore (VMap 1%positive) None in
  let h2 := sentStore scenarioAdapter h1 (VMap 1%positive) None in
  mapLookup h1 2%positive "data" = Some (VString once)
  /\ mapLookup h2 2%positive "data" = Some (VString twice)
  /\ Base64.DecodeString twice = Some (list_byte_of_string once)
  /\ (forall opCode, mapLookup scenarioStore 2%positive "op_code" = Some opCode ->
      exists text, mapLookup h1 2%positive "op_code" = Some (VString text)
                   /\ mapLookup h2 2%positive "op_code" = Some (VString text)).
Proof.
  apply (Send_again_encodes_the_payload_twice scenarioAdapter 5 scenarioStore
           1%positive 2%positive "match_data_send" (VBytes scenarioPayload)
           scenarioPayload None None).
  - reflexivity.
  - left; reflexivity.
  - vm_compute; reflexivity.
  - exact scenario_notShared.
  - vm_compute; reflexivity.
  - reflexivity.
Defined.


(** X7 at the scenario: a notification passes through unchanged. *)
Lemma other_frames_witness :
  listenStep sameText scenarioAdapter (ReadOK (Text (JObj notificationFrame)))
  = (scenarioAdapter, [EOnMessage (JObj notificationFrame)], Reading).
Proof.
  apply (other_frames_are_delivered_unchanged sameText scenarioAdapter
           notificationFrame).
  - reflexivity.
  - vm_compute; reflexivity.
  - vm_compute; reflexivity.
  - exact notificationFrame_kept.
Defined.

(** X16 at the scenario: a session of 60 and 3600 seconds draws both
    warnings. *)
Lemma RefreshSession_warnings_witness :
  lifetimesFit (scenarioSession "r1")
  /\ logged (snd (RefreshSession scenarioUpdate scenarioClient
                    (Some (scenarioSession "r1")) None scenarioWorld))
     = [lifetimeWarning; refreshLifetimeWarning].
Proof.
  assert (lifetimesFit (scenarioSession "r1")) as H.
  { split; intros e [= <-]; unfold fits64; cbn; lia. }
  split; [exact H |].
  exact (RefreshSession_logs_the_warnings scenarioUpdate scenarioClient
           (scenarioSession "r1") None scenarioWorld H).
Defined.

(** X18 at the scenario: a session without a refresh token goes straight to
    the underlying call. *)
Lemma gate_closed_witness :
  AddGroupUsers scenarioIsExpired scenarioUpdate scenarioClient
    (scenarioSession EmptyString) "group" ["user"] scenarioWorld
  = ((true, None), scenarioSession EmptyString,
     request scenarioWorld (CallAddGroupUsers "t1" "group" ["user"] ∅)).
Proof.
  pose proof (gate_closed_means_no_refresh scenarioIsExpired scenarioUpdate
                scenarioClient (scenarioSession EmptyString) scenarioWorld
                (or_intror (or_introl eq_refl))) as [H _].
  exact (H "group" ["user"]).
Defined.

(** X19 at the scenario: at second 2000 the gate asks about second 2300. *)
Lemma gate_five_minutes_witness :
  refreshDue scenarioIsExpired scenarioClient (scenarioSession "r1") scenarioWorld
  = scenarioIsExpired (scenarioSession "r1") 2300.
Proof.
  apply (gate_looks_five_minutes_ahead scenarioIsExpired scenarioClient
           (scenarioSession "r1") scenarioWorld).
  - reflexivity.
  - cbn; lia.
Defined.

(** The scenario's envelope is flat, so its [Send] succeeds. *)
Lemma Send_succeeds_witness :
  exists printed wire,
    Send scenarioAdapter scenarioStore (VMap 1%positive) None
    = (scenarioAdapter, encoded scenarioStore 1%positive,
       [printed; EWriteMessage 5 wire None; EPrintln "no problems"], None).
Proof.
  apply (Send_succeeds_on_flat_envelope scenarioAdapter 5 scenarioStore 1%positive).
  - reflexivity.
  - exact scenario_flatEnvelope.
Defined.

(** The inbound scenario: the payload is bytes in between and base64 at the
    callback. *)
Lemma inbound_payload_witness :
  exists dataMap,
    dmember (decodeReceivedData
               (decodeReceivedData (DMap (unmarshal <$> inboundFrame)) "match_data")
               "party_data") "match_data" = Some (DMap dataMap)
    /\ dataMap !! "data" = Some (DBytes scenarioPayload)
    /\ member2 (delivered sameText inboundFrame) "match_data" "data"
       = Some (JStr (Base64.EncodeToString scenarioPayload)).
Proof.
  apply (inbound_payload_decoded_then_delivered_as_base64 sameText inboundFrame
           "match_data" scenarioPayload).
  - left; reflexivity.
  - vm_compute; reflexivity.
Defined.
